(** * Variational eigensolver for the toy Hamiltonian H = aZ + bX + cY

    A shallow embedding of the notebook: the count
    estimator [exp_from_counts], the circuit builder [get_var_form], the
    energy objective [ham_exp_val] and the exact check through
    [ham_matrix].

    Conventions of the embedding.
    - Python [int] is [Z]; a [dict] from outcome strings to counts is a
      [gmap string Z]; a failing Python operation is an exception value.
    - [int / int] (true division) is the exact quotient, kept as a reduced
      fraction of [Q]; numpy's float64 values are real numbers extended
      with the two infinities and NaN.  Rounding is not modelled.
    - The simulator behind [execute] is external and stochastic: it is a
      function of the circuit, the shot budget and the state of the
      randomness source, and every run is appended to a log. *)

From Stdlib Require Import ZArith QArith Qreduction Qreals Reals Lra Lia List.
From stdpp Require Import gmap strings.

Local Open Scope Z_scope.
Local Open Scope string_scope.
Local Open Scope list_scope.

(** ** Python exceptions and the error monad *)

Inductive PyExc : Type :=
| KeyError (key : string)
| IndexError
| ZeroDivisionError.

Inductive Res (A : Type) : Type :=
| Ok (a : A)
| Raise (e : PyExc).

Arguments Ok {A} a.
Arguments Raise {A} e.

Definition res_bind {A B : Type} (r : Res A) (k : A -> Res B) : Res B :=
  match r with
  | Ok a => k a
  | Raise e => Raise e
  end.

Declare Scope res_scope.
Delimit Scope res_scope with res.
Notation "'let!' x ':=' r 'in' k" := (res_bind r (fun x => k))
  (at level 10, x name, r at level 100, k at level 200) : res_scope.
Local Open Scope res_scope.

(** [d[key]]: raises [KeyError] when the key is absent. *)
Definition dict_getitem (d : gmap string Z) (key : string) : Res Z :=
  match d !! key with
  | Some v => Ok v
  | None => Raise (KeyError key)
  end.

(** [key in d.keys()] *)
Definition dict_contains (d : gmap string Z) (key : string) : bool :=
  bool_decide (is_Some (d !! key)).

(** [x / y] on two Python ints. *)
Definition py_truediv (x y : Z) : Res Q :=
  if (y =? 0)%Z then Raise ZeroDivisionError
  else Ok (Qred (inject_Z x / inject_Z y)).

(** [l[i]] on a sequence. *)
Definition seq_getitem {A : Type} (l : list A) (i : nat) : Res A :=
  match nth_error l i with
  | Some a => Ok a
  | None => Raise IndexError
  end.

(** ** The expectation estimator *)

(** The module-level constant of the notebook. *)
Definition NUM_SHOTS : Z := 10000.

Section Estimator.

(** The shot budget read by [exp_from_counts]; the notebook's value is
    [NUM_SHOTS]. *)
Variable shots : Z.

Definition exp_from_counts (counts : gmap string Z) : Res Q :=
  if negb (dict_contains counts "0") then
    let! c1 := dict_getitem counts "1" in
    py_truediv (-1 * c1) shots
  else if negb (dict_contains counts "1") then
    let! c0 := dict_getitem counts "0" in
    py_truediv c0 shots
  else
    let! c0 := dict_getitem counts "0" in
    let! c1 := dict_getitem counts "1" in
    py_truediv (c0 - c1) shots.

End Estimator.

(** The number of times an outcome was observed: an absent key of the
    sparse mapping is a count of zero. *)
Definition count (counts : gmap string Z) (key : string) : Z :=
  default 0 (counts !! key).

(** The counts of one run of [shots] shots: non-negative, summing to the
    shot budget. *)
Record OutcomeCounts (shots : Z) (counts : gmap string Z) : Prop := {
  oc_zero_nonneg : 0 <= count counts "0";
  oc_one_nonneg : 0 <= count counts "1";
  oc_total : count counts "0" + count counts "1" = shots
}.

(** ** The circuit builder *)

Inductive Gate : Type :=
| RY (angle : R)
| RZ (angle : R)
| GH
| GZ
| GS
| Measure.

Definition Circuit : Type := list Gate.

(** The circuit on the one qubit [q] and the one classical bit [c]: the
    gates in the order they are appended. *)
Definition get_var_form (params : list R) (meas_axis : string) : Res Circuit :=
  let qc := [] in
  let! p0 := seq_getitem params 0 in
  let qc := qc ++ [RY p0] in
  let! qc :=
    (if (1 <? length params)%nat then
       let! p1 := seq_getitem params 1 in Ok (qc ++ [RZ p1])
     else Ok qc) in
  let qc :=
    if String.eqb meas_axis "x" then qc ++ [GH]
    else if String.eqb meas_axis "y" then ((qc ++ [GZ]) ++ [GS]) ++ [GH]
    else qc in
  Ok (qc ++ [Measure]).

(** ** numpy's float64 arithmetic *)

(** A float64 value: a real number, an infinity or NaN. *)
Inductive float64 : Type :=
| Fin (x : R)
| PosInf
| NegInf
| NaN.

(** [x / y] on two finite values, under numpy's default error state:
    a zero divisor warns and yields an infinity or NaN, it does not
    raise. *)
Definition np_divide (x y : R) : float64 :=
  if Req_dec_T y 0 then
    if Req_dec_T x 0 then NaN
    else if Rlt_dec 0 x then PosInf else NegInf
  else Fin (x / y).

(** [a * v] for a finite coefficient [a]. *)
Definition np_multiply (a : R) (v : float64) : float64 :=
  match v with
  | Fin x => Fin (a * x)
  | PosInf =>
      if Req_dec_T a 0 then NaN else if Rlt_dec 0 a then PosInf else NegInf
  | NegInf =>
      if Req_dec_T a 0 then NaN else if Rlt_dec 0 a then NegInf else PosInf
  | NaN => NaN
  end.

Definition np_add (v w : float64) : float64 :=
  match v, w with
  | NaN, _ | _, NaN => NaN
  | PosInf, NegInf | NegInf, PosInf => NaN
  | PosInf, _ | _, PosInf => PosInf
  | NegInf, _ | _, NegInf => NegInf
  | Fin x, Fin y => Fin (x + y)
  end.

(** Python's [sum] over a sequence: a left fold that starts from 0. *)
Definition py_sum (l : list float64) : float64 :=
  fold_left np_add l (Fin 0).

(** [np.linalg.norm] of a vector of three components. *)
Definition np_linalg_norm (v : R * R * R) : R :=
  let '(vz, vx, vy) := v in sqrt (vz * vz + vx * vx + vy * vy).

(** ** The energy objective *)

Section Objective.

(** The state of the simulator's randomness source. *)
Context {Rng : Type}.

(** The simulator: a circuit, a shot budget and the state of the
    randomness source give the counts of the run and the next state. *)
Variable backend : Circuit -> Z -> Rng -> gmap string Z * Rng.

Variable shots : Z.

(** What an evaluation of the objective can observe and change: the
    randomness source, and the circuits simulated so far. *)
Record World : Type := {
  rng : Rng;
  executed : list Circuit
}.

Definition Sim (A : Type) : Type := World -> Res A * World.

Definition sim_ret {A : Type} (a : A) : Sim A := fun w => (Ok a, w).

Definition sim_bind {A B : Type} (m : Sim A) (k : A -> Sim B) : Sim B :=
  fun w =>
    match m w with
    | (Ok a, w') => k a w'
    | (Raise e, w') => (Raise e, w')
    end.

Definition sim_lift {A : Type} (r : Res A) : Sim A := fun w => (r, w).

(** [execute(qc, backend, shots=NUM_SHOTS).result().get_counts()] *)
Definition execute (qc : Circuit) : Sim (gmap string Z) :=
  fun w =>
    let '(counts, r) := backend qc shots (rng w) in
    (Ok counts, {| rng := r; executed := executed w ++ [qc] |}).

Notation "'run!' x ':=' m 'in' k" := (sim_bind m (fun x => k))
  (at level 10, x name, m at level 100, k at level 200).

(** The objective.  The two diagnostic lines it prints when [verbose]
    is set do not change its result and are left out. *)
Definition ham_exp_val (params : list R) (ham_coef : R * R * R)
  : Sim float64 :=
  run! qc_z := sim_lift (get_var_form params "z") in
  run! counts_z := execute qc_z in
  run! qc_x := sim_lift (get_var_form params "x") in
  run! counts_x := execute qc_x in
  run! qc_y := sim_lift (get_var_form params "y") in
  run! counts_y := execute qc_y in
  run! e_z := sim_lift (exp_from_counts shots counts_z) in
  run! e_x := sim_lift (exp_from_counts shots counts_x) in
  run! e_y := sim_lift (exp_from_counts shots counts_y) in
  let exp_val_vec := (Q2R e_z, Q2R e_x, Q2R e_y) in
  let norm := np_linalg_norm exp_val_vec in
  let '(vz, vx, vy) := exp_val_vec in
  let exp_val_vec := (np_divide vz norm, np_divide vx norm,
                      np_divide vy norm) in
  let '(a, b, c) := ham_coef in
  let '(nz, nx, ny) := exp_val_vec in
  let ham_vec := [np_multiply a nz; np_multiply b nx; np_multiply c ny] in
  sim_ret (py_sum ham_vec).

(** The three runs of [ham_exp_val] and their raw estimates, in the
    order Z, X, Y: the part of [ham_exp_val] before the vector is
    normalized (see [ham_exp_val_measure_bases]). *)
Definition measure_bases (params : list R) : Sim (Q * Q * Q) :=
  run! qc_z := sim_lift (get_var_form params "z") in
  run! counts_z := execute qc_z in
  run! qc_x := sim_lift (get_var_form params "x") in
  run! counts_x := execute qc_x in
  run! qc_y := sim_lift (get_var_form params "y") in
  run! counts_y := execute qc_y in
  run! e_z := sim_lift (exp_from_counts shots counts_z) in
  run! e_x := sim_lift (exp_from_counts shots counts_x) in
  run! e_y := sim_lift (exp_from_counts shots counts_y) in
  sim_ret (e_z, e_x, e_y).

End Objective.

Arguments rng {Rng} w.
Arguments executed {Rng} w.

(** A simulator that returns the same counts on every run, and a world in
    which nothing has been simulated yet. *)
Definition constant_backend (counts : gmap string Z)
  : Circuit -> Z -> unit -> gmap string Z * unit :=
  fun _ _ r => (counts, r).

Definition fresh_world : World := {| rng := tt; executed := [] |}.

(** The counts in which both outcomes were seen equally often. *)
Definition balanced_counts : gmap string Z :=
  <[ "0" := 5000 ]> {[ "1" := 5000 ]}.

(** ** One-qubit semantics of the gates *)

Module Qubit.

Local Open Scope R_scope.

(** A complex number: real and imaginary part. *)
Definition C : Type := (R * R)%type.

Definition RtoC (x : R) : C := (x, 0).
Definition Ci : C := (0, 1).
Definition Cadd (z w : C) : C := (fst z + fst w, snd z + snd w).
Definition Cneg (z : C) : C := (- fst z, - snd z).
Definition Csub (z w : C) : C := Cadd z (Cneg w).
Definition Cmul (z w : C) : C :=
  (fst z * fst w - snd z * snd w, fst z * snd w + snd z * fst w).
Definition Cconj (z : C) : C := (fst z, - snd z).
Definition Cnorm2 (z : C) : R := fst z * fst z + snd z * snd z.

Record Mat2 : Type := mk_mat { m00 : C; m01 : C; m10 : C; m11 : C }.

Definition Vec2 : Type := (C * C)%type.

Definition I2 : Mat2 := mk_mat (RtoC 1) (RtoC 0) (RtoC 0) (RtoC 1).

Definition Mmul (A B : Mat2) : Mat2 :=
  mk_mat (Cadd (Cmul (m00 A) (m00 B)) (Cmul (m01 A) (m10 B)))
         (Cadd (Cmul (m00 A) (m01 B)) (Cmul (m01 A) (m11 B)))
         (Cadd (Cmul (m10 A) (m00 B)) (Cmul (m11 A) (m10 B)))
         (Cadd (Cmul (m10 A) (m01 B)) (Cmul (m11 A) (m11 B))).

(** The conjugate transpose. *)
Definition Madj (A : Mat2) : Mat2 :=
  mk_mat (Cconj (m00 A)) (Cconj (m10 A)) (Cconj (m01 A)) (Cconj (m11 A)).

Definition Mapp (A : Mat2) (v : Vec2) : Vec2 :=
  (Cadd (Cmul (m00 A) (fst v)) (Cmul (m01 A) (snd v)),
   Cadd (Cmul (m10 A) (fst v)) (Cmul (m11 A) (snd v))).

Definition Vscale (c : C) (v : Vec2) : Vec2 :=
  (Cmul c (fst v), Cmul c (snd v)).

Definition Hermitian (A : Mat2) : Prop := Madj A = A.

(** The standard matrices of the gates the builder appends. *)
Definition Ry (t : R) : Mat2 :=
  mk_mat (RtoC (cos (t / 2))) (RtoC (- sin (t / 2)))
         (RtoC (sin (t / 2))) (RtoC (cos (t / 2))).

Definition Rz (t : R) : Mat2 :=
  mk_mat (cos (t / 2), - sin (t / 2)) (RtoC 0)
         (RtoC 0) (cos (t / 2), sin (t / 2)).

Definition Had : Mat2 :=
  mk_mat (RtoC (/ sqrt 2)) (RtoC (/ sqrt 2))
         (RtoC (/ sqrt 2)) (RtoC (- / sqrt 2)).

Definition PauliZ : Mat2 := mk_mat (RtoC 1) (RtoC 0) (RtoC 0) (RtoC (-1)).
Definition PauliX : Mat2 := mk_mat (RtoC 0) (RtoC 1) (RtoC 1) (RtoC 0).
Definition PauliY : Mat2 := mk_mat (RtoC 0) (Cneg Ci) Ci (RtoC 0).
Definition Sgate : Mat2 := mk_mat (RtoC 1) (RtoC 0) (RtoC 0) Ci.

(** The measurement ends the circuit and is no part of its unitary. *)
Definition gate_matrix (g : Gate) : Mat2 :=
  match g with
  | RY t => Ry t
  | RZ t => Rz t
  | GH => Had
  | GZ => PauliZ
  | GS => Sgate
  | Measure => I2
  end.

(** The unitary of a circuit: its gates applied in the order they were
    appended, the first gate acting first. *)
Definition circuit_unitary (qc : Circuit) : Mat2 :=
  fold_left (fun U g => Mmul (gate_matrix g) U) qc I2.

Definition ket0 : Vec2 := (RtoC 1, RtoC 0).
Definition ket1 : Vec2 := (RtoC 0, RtoC 1).

(** The state a circuit prepares from |0>. *)
Definition circuit_state (qc : Circuit) : Vec2 :=
  Mapp (circuit_unitary qc) ket0.

(** The probability of the outcome 0 when the state is measured. *)
Definition prob0 (v : Vec2) : R := Cnorm2 (fst v).

(** The eigenvectors of the Pauli operator Y, for +1 and -1. *)
Definition ket_plus_i : Vec2 := (RtoC (/ sqrt 2), Cmul Ci (RtoC (/ sqrt 2))).
Definition ket_minus_i : Vec2 :=
  (RtoC (/ sqrt 2), Cneg (Cmul Ci (RtoC (/ sqrt 2)))).

(** *** The exact check *)

Definition ham_matrix (ham_coef : R * R * R) : Mat2 :=
  let '(a, b, c) := ham_coef in
  mk_mat (RtoC a) (Csub (RtoC b) (Cmul Ci (RtoC c)))
         (Cadd (RtoC b) (Cmul Ci (RtoC c))) (RtoC (-1 * a)).

Definition eigenvalue (A : Mat2) (l : C) : Prop :=
  exists v : Vec2, v <> (RtoC 0, RtoC 0) /\ Mapp A v = Vscale l v.

Definition Cdet (A : Mat2) : C :=
  Csub (Cmul (m00 A) (m11 A)) (Cmul (m01 A) (m10 A)).

(** [A - l * I] *)
Definition Mshift (A : Mat2) (l : C) : Mat2 :=
  mk_mat (Csub (m00 A) l) (m01 A) (m10 A) (Csub (m11 A) l).

(** [np.linalg.eig(A)[0]] on a Hermitian 2x2 matrix: the two roots of
    the characteristic polynomial, in closed form.  The routine is
    numpy's; [np_linalg_eig_spec] below shows that these are the
    eigenvalues of the matrix. *)
Definition np_linalg_eig (A : Mat2) : C * C :=
  let p := fst (m00 A) in
  let r := fst (m11 A) in
  let d := sqrt (((p - r) / 2) * ((p - r) / 2) + Cnorm2 (m01 A)) in
  (RtoC ((p + r) / 2 + d), RtoC ((p + r) / 2 - d)).

(** The order numpy gives complex scalars: by real part, then by
    imaginary part. *)
Definition Cltb (z w : C) : bool :=
  if Rlt_dec (fst z) (fst w) then true
  else if Req_dec_T (fst z) (fst w) then
    (if Rlt_dec (snd z) (snd w) then true else false)
  else false.

(** Python's [min] over the two eigenvalues. *)
Definition py_min (zs : C * C) : C :=
  let '(z, w) := zs in if Cltb w z then w else z.

(** [min(np.linalg.eig(ham_matrix)[0])] *)
Definition exact_energy (ham_coef : R * R * R) : C :=
  py_min (np_linalg_eig (ham_matrix ham_coef)).

(** *** What a simulator without sampling noise would measure *)

(** The probability of the outcome 1. *)
Definition prob1 (v : Vec2) : R := Cnorm2 (snd v).

(** The value the estimate (count(0) - count(1)) / shots of a circuit
    tends to: p(0) - p(1) in the state the circuit prepares. *)
Definition exact_exp_val (qc : Circuit) : R :=
  prob0 (circuit_state qc) - prob1 (circuit_state qc).

Definition Cinner (u v : Vec2) : C :=
  Cadd (Cmul (Cconj (fst u)) (fst v)) (Cmul (Cconj (snd u)) (snd v)).

Definition Madd (A B : Mat2) : Mat2 :=
  mk_mat (Cadd (m00 A) (m00 B)) (Cadd (m01 A) (m01 B))
         (Cadd (m10 A) (m10 B)) (Cadd (m11 A) (m11 B)).

Definition Mscale (c : C) (A : Mat2) : Mat2 :=
  mk_mat (Cmul c (m00 A)) (Cmul c (m01 A))
         (Cmul c (m10 A)) (Cmul c (m11 A)).

(** The expectation value of an operator in a state. *)
Definition expectation (A : Mat2) (v : Vec2) : C := Cinner v (Mapp A v).

(** *** The operator of the notebook built on the library classes *)

(** [Pauli(z, x)]: the two bit vectors of a Pauli operator. *)
Record Pauli : Type := mk_pauli { pauli_z : list bool; pauli_x : list bool }.

(** The matrix of a Pauli operator on one qubit: by its bits z and x,
    the identity, Z, X or Y. *)
Definition pauli_matrix (p : Pauli) : option Mat2 :=
  match pauli_z p, pauli_x p with
  | [z], [x] =>
      Some (match z, x with
            | false, false => I2
            | true, false => PauliZ
            | false, true => PauliX
            | true, true => PauliY
            end)
  | _, _ => None
  end.

(** A weighted Pauli operator: the list of its weighted terms. *)
Definition WeightedPauliOperator : Type := list (R * Pauli).

(** The matrix of a weighted sum of one-qubit Pauli operators. *)
Definition operator_matrix (op : WeightedPauliOperator) : option Mat2 :=
  fold_left
    (fun acc term =>
       match acc, pauli_matrix (snd term) with
       | Some M, Some P => Some (Madd M (Mscale (RtoC (fst term)) P))
       | _, _ => None
       end)
    op (Some (mk_mat (RtoC 0) (RtoC 0) (RtoC 0) (RtoC 0))).

Definition bits_eqb (l1 l2 : list bool) : bool :=
  Nat.eqb (length l1) (length l2)
  && forallb (fun p => Bool.eqb (fst p) (snd p)) (combine l1 l2).

Definition pauli_eqb (p q : Pauli) : bool :=
  bits_eqb (pauli_z p) (pauli_z q) && bits_eqb (pauli_x p) (pauli_x q).

(** A term joins the terms collected so far: its weight is added to the
    term on the same Pauli operator when there is one, else the term is
    put at the end. *)
Fixpoint add_term (t : R * Pauli) (acc : WeightedPauliOperator)
  : WeightedPauliOperator :=
  match acc with
  | [] => [t]
  | u :: acc' =>
      if pauli_eqb (snd u) (snd t) then (fst u + fst t, snd u) :: acc'
      else u :: add_term t acc'
  end.

(** [WeightedPauliOperator(paulis)]: the library's constructor simplifies
    the list it is given: terms on the same Pauli operator are combined,
    and the terms whose weight is then zero are removed. *)
Definition WeightedPauliOperator_init (paulis : list (R * Pauli))
  : WeightedPauliOperator :=
  List.filter (fun t => if Req_dec_T (fst t) 0 then false else true)
    (fold_left (fun acc t => add_term t acc) paulis []).

(** [get_ham_op]: [None] is the ValueError of the unpacking
    [a,b,c = params] when [params] has not three components. *)
Definition get_ham_op (params : list R) : option WeightedPauliOperator :=
  match params with
  | [a; b; c] =>
      let Z := mk_pauli [true] [false] in
      let X := mk_pauli [false] [true] in
      let Y := mk_pauli [true] [true] in
      let ham := WeightedPauliOperator_init [(a, Z); (b, X); (c, Y)] in
      Some ham
  | _ => None
  end.

End Qubit.

(** * Properties *)

(** ** The estimator *)

Lemma dict_contains_lookup (d : gmap string Z) (key : string) :
  dict_contains d key = match d !! key with Some _ => true | None => false end.
Proof.
  unfold dict_contains. destruct (d !! key) as [v|] eqn:E.
  - apply bool_decide_eq_true. eauto.
  - apply bool_decide_eq_false. intros [v Hv]. discriminate.
Qed.

(** The estimator, by the presence of the two outcome keys. *)
Lemma exp_from_counts_lookup (shots : Z) (counts : gmap string Z) :
  exp_from_counts shots counts =
  match counts !! "0", counts !! "1" with
  | None, None => Raise (KeyError "1")
  | None, Some c1 => py_truediv (-1 * c1) shots
  | Some c0, None => py_truediv c0 shots
  | Some c0, Some c1 => py_truediv (c0 - c1) shots
  end.
Proof.
  unfold exp_from_counts, dict_getitem.
  rewrite !dict_contains_lookup.
  destruct (counts !! "0"), (counts !! "1"); reflexivity.
Qed.

Lemma py_truediv_ok (x y : Z) :
  y <> 0 -> py_truediv x y = Ok (Qred (inject_Z x / inject_Z y)).
Proof.
  intros Hy. unfold py_truediv.
  destruct (Z.eqb_spec y 0); [contradiction | reflexivity].
Qed.

Lemma inject_Z_nonzero (y : Z) : y <> 0 -> ~ (inject_Z y == 0)%Q.
Proof.
  intros Hy H. apply Hy. unfold Qeq in H. simpl in H. lia.
Qed.

Lemma Qred_self_quotient (y : Z) :
  y <> 0 -> Qred (inject_Z y / inject_Z y) = 1%Q.
Proof.
  intros Hy. change 1%Q with (Qred 1). apply Qred_complete.
  apply Qmult_inv_r, inject_Z_nonzero, Hy.
Qed.

Lemma Qred_opp_quotient (y : Z) :
  y <> 0 -> Qred (inject_Z (- y) / inject_Z y) = (-1)%Q.
Proof.
  intros Hy. change (-1)%Q with (Qred (-1)). apply Qred_complete.
  rewrite inject_Z_opp. field. apply inject_Z_nonzero, Hy.
Qed.

Lemma Qred_quotient_range (x y : Z) :
  0 < y -> - y <= x <= y ->
  (-1 <= Qred (inject_Z x / inject_Z y) <= 1)%Q.
Proof.
  intros Hy [Hlo Hhi]. rewrite Qred_correct.
  assert (Hpos : (0 < inject_Z y)%Q).
  { change 0%Q with (inject_Z 0). rewrite <- Zlt_Qlt. exact Hy. }
  split.
  - apply Qle_shift_div_l; [exact Hpos |].
    change (-1)%Q with (inject_Z (-1)).
    rewrite <- inject_Z_mult, <- Zle_Qle. lia.
  - apply Qle_shift_div_r; [exact Hpos |].
    change 1%Q with (inject_Z 1).
    rewrite <- inject_Z_mult, <- Zle_Qle. lia.
Qed.

(** A positive total leaves at least one outcome key in the mapping. *)
Lemma positive_total_has_key (counts : gmap string Z) :
  0 < count counts "0" + count counts "1" ->
  is_Some (counts !! "0") \/ is_Some (counts !! "1").
Proof.
  unfold count. destruct (counts !! "0"), (counts !! "1"); simpl; eauto.
  lia.
Qed.

(** C1: when the counts sum to the shot budget, the estimator returns
    exactly +1 if the outcome 1 was never seen, -count(1)/shots (which is
    then exactly -1) if the outcome 0 was never seen, and
    (count(0) - count(1))/shots otherwise. *)
Theorem exp_from_counts_edge_policy (shots : Z) (counts : gmap string Z) :
  shots <> 0 ->
  count counts "0" + count counts "1" = shots ->
  exists q : Q,
    exp_from_counts shots counts = Ok q /\
    (count counts "1" = 0 -> q = 1%Q) /\
    (count counts "0" = 0 ->
       q = Qred (inject_Z (- count counts "1") / inject_Z shots) /\
       q = (-1)%Q) /\
    (count counts "0" <> 0 -> count counts "1" <> 0 ->
       q = Qred (inject_Z (count counts "0" - count counts "1")
                 / inject_Z shots)).
Proof.
  intros Hs Hsum. rewrite exp_from_counts_lookup.
  unfold count in *.
  destruct (counts !! "0") as [c0|], (counts !! "1") as [c1|];
    simpl in *; rewrite ?py_truediv_ok by exact Hs.
  - eexists; split; [reflexivity |]. split; [| split].
    + intros ->. replace (c0 - 0) with shots by lia.
      apply Qred_self_quotient, Hs.
    + intros ->. split.
      * replace (0 - c1) with (- c1) by lia. reflexivity.
      * replace (0 - c1) with (- shots) by lia.
        apply Qred_opp_quotient, Hs.
    + reflexivity.
  - eexists; split; [reflexivity |]. split; [| split].
    + intros _. replace c0 with shots by lia. apply Qred_self_quotient, Hs.
    + intros ->. lia.
    + intros _ H. contradiction.
  - eexists; split; [reflexivity |]. split; [| split].
    + intros ->. lia.
    + intros _. split.
      * replace (-1 * c1) with (- c1) by lia. reflexivity.
      * replace (-1 * c1) with (- shots) by lia.
        apply Qred_opp_quotient, Hs.
    + intros H. contradiction.
  - exfalso. lia.
Qed.

Lemma exp_from_counts_edge_policy_witness :
  exists q : Q,
    exp_from_counts NUM_SHOTS {[ "0" := NUM_SHOTS ]} = Ok q /\ q = 1%Q.
Proof.
  destruct (exp_from_counts_edge_policy NUM_SHOTS {[ "0" := NUM_SHOTS ]})
    as (q & Hq & Hone & _).
  - unfold NUM_SHOTS. lia.
  - vm_compute. reflexivity.
  - exists q. split; [exact Hq | apply Hone; vm_compute; reflexivity].
Defined.

(** C8: on the counts of a run with a positive shot budget the estimate
    lies between -1 and 1, whichever branch computes it. *)
Theorem exp_from_counts_range (shots : Z) (counts : gmap string Z) :
  0 < shots ->
  OutcomeCounts shots counts ->
  exists q : Q,
    exp_from_counts shots counts = Ok q /\ (-1 <= q <= 1)%Q.
Proof.
  intros Hs [H0 H1 Hsum]. rewrite exp_from_counts_lookup.
  unfold count in *.
  destruct (counts !! "0") as [c0|], (counts !! "1") as [c1|];
    simpl in *; rewrite ?py_truediv_ok by lia;
    try (eexists; split; [reflexivity |];
         apply Qred_quotient_range; lia).
  lia.
Qed.

Lemma exp_from_counts_range_witness :
  exists q : Q,
    exp_from_counts NUM_SHOTS (<[ "0" := 2500 ]> {[ "1" := 7500 ]}) = Ok q /\
    (-1 <= q <= 1)%Q.
Proof.
  apply (exp_from_counts_range NUM_SHOTS (<[ "0" := 2500 ]> {[ "1" := 7500 ]})).
  - unfold NUM_SHOTS. lia.
  - split; vm_compute; first [reflexivity | discriminate].
Defined.

(** C9: with at least one of the keys '0' and '1' in the mapping, no key
    lookup of the estimator fails, also when the other key is absent. *)
Theorem exp_from_counts_no_key_error (shots : Z) (counts : gmap string Z) :
  is_Some (counts !! "0") \/ is_Some (counts !! "1") ->
  (forall key, exp_from_counts shots counts <> Raise (KeyError key)) /\
  (shots <> 0 -> exists q : Q, exp_from_counts shots counts = Ok q).
Proof.
  intros Hkey. rewrite exp_from_counts_lookup.
  destruct (counts !! "0") as [c0|], (counts !! "1") as [c1|];
    try (destruct Hkey as [[? H] | [? H]]; discriminate H).
  all: split;
    [ intros key; unfold py_truediv; destruct (Z.eqb _ _); discriminate
    | intros Hs; rewrite py_truediv_ok by exact Hs; eauto ].
Qed.

Lemma exp_from_counts_no_key_error_witness :
  (forall key,
     exp_from_counts NUM_SHOTS {[ "1" := NUM_SHOTS ]} <>
     Raise (KeyError key)) /\
  (NUM_SHOTS <> 0 ->
   exists q : Q, exp_from_counts NUM_SHOTS {[ "1" := NUM_SHOTS ]} = Ok q).
Proof.
  apply (exp_from_counts_no_key_error NUM_SHOTS {[ "1" := NUM_SHOTS ]}).
  right. vm_compute. eauto.
Defined.

(** ** The circuit builder *)

(** The rotations the builder starts the circuit with. *)
Lemma get_var_form_cons (p0 : R) (rest : list R) (meas_axis : string) :
  get_var_form (p0 :: rest) meas_axis =
  Ok ((RY p0 :: match rest with [] => [] | p1 :: _ => [RZ p1] end)
      ++ (if String.eqb meas_axis "x" then [GH]
          else if String.eqb meas_axis "y" then [GZ; GS; GH]
          else [])
      ++ [Measure]).
Proof.
  unfold get_var_form.
  destruct rest as [|p1 rest]; simpl;
    destruct (String.eqb meas_axis "x"), (String.eqb meas_axis "y");
    reflexivity.
Qed.

Lemma get_var_form_nil (meas_axis : string) :
  get_var_form [] meas_axis = Raise IndexError.
Proof. reflexivity. Qed.

(** C10: a basis tag other than 'x' and 'y' is not rejected: the builder
    returns the circuit of the tag 'z', with no basis-change gate. *)
Theorem get_var_form_unknown_axis (params : list R) (meas_axis : string) :
  meas_axis <> "x" -> meas_axis <> "y" ->
  get_var_form params meas_axis = get_var_form params "z" /\
  (forall p0 rest, params = p0 :: rest ->
     get_var_form params meas_axis =
     Ok (RY p0 :: match rest with [] => [] | p1 :: _ => [RZ p1] end
         ++ [Measure])).
Proof.
  intros Hx Hy.
  apply String.eqb_neq in Hx. apply String.eqb_neq in Hy.
  destruct params as [|p0 rest].
  - split; [reflexivity | intros ? ? H; discriminate H].
  - rewrite !get_var_form_cons, Hx, Hy. simpl. split; [reflexivity |].
    intros q0 rest' H. injection H as <- <-. reflexivity.
Qed.

Lemma get_var_form_unknown_axis_witness :
  get_var_form [1%R; 2%R] "w" = get_var_form [1%R; 2%R] "z" /\
  get_var_form [1%R; 2%R] "w" = Ok [RY 1; RZ 2; Measure].
Proof.
  destruct (get_var_form_unknown_axis [1%R; 2%R] "w") as [Hz Hqc].
  - discriminate.
  - discriminate.
  - split; [exact Hz | exact (Hqc _ _ eq_refl)].
Defined.

(** C2, as the claim states it, fails: a vector of three parameters is
    accepted. *)
Lemma three_params_accepted :
  (2 < length [1%R; 2%R; 3%R])%nat /\
  get_var_form [1%R; 2%R; 3%R] "z" = Ok [RY 1; RZ 2; Measure] /\
  ~ (forall (params : list R) (meas_axis : string),
       (length params = 0 \/ 2 < length params)%nat ->
       exists e, get_var_form params meas_axis = Raise e).
Proof.
  split; [simpl; lia |]. split; [reflexivity |].
  intros H. destruct (H [1%R; 2%R; 3%R] "z") as [e He].
  - right. simpl. lia.
  - discriminate He.
Qed.

(** C2, amended: no length is validated.  The empty vector fails with the
    IndexError of [params[0]], and the objective passes it on before any
    circuit is simulated; a vector of more than two parameters is
    accepted, and only its first two components are used. *)
Theorem get_var_form_length_policy :
  (forall meas_axis, get_var_form [] meas_axis = Raise IndexError) /\
  (forall (Rng : Type) (backend : Circuit -> Z -> Rng -> gmap string Z * Rng)
          (shots : Z) (ham_coef : R * R * R) (w : World),
     ham_exp_val backend shots [] ham_coef w = (Raise IndexError, w)) /\
  (forall p0 p1 rest meas_axis,
     get_var_form (p0 :: p1 :: rest) meas_axis =
     get_var_form [p0; p1] meas_axis /\
     exists qc, get_var_form (p0 :: p1 :: rest) meas_axis = Ok qc).
Proof.
  split; [reflexivity |]. split; [reflexivity |].
  intros p0 p1 rest meas_axis. rewrite !get_var_form_cons.
  split; [reflexivity | eauto].
Qed.

(** ** The energy objective *)

Local Open Scope R_scope.

Lemma ham_exp_val_measure_bases {Rng : Type}
    (backend : Circuit -> Z -> Rng -> gmap string Z * Rng) (shots : Z)
    (params : list R) (a b c : R) (w : World) :
  ham_exp_val backend shots params (a, b, c) w =
  match measure_bases backend shots params w with
  | (Ok (e_z, e_x, e_y), w') =>
      let n := np_linalg_norm (Q2R e_z, Q2R e_x, Q2R e_y) in
      (Ok (py_sum [np_multiply a (np_divide (Q2R e_z) n);
                   np_multiply b (np_divide (Q2R e_x) n);
                   np_multiply c (np_divide (Q2R e_y) n)]), w')
  | (Raise e, w') => (Raise e, w')
  end.
Proof.
  unfold ham_exp_val, measure_bases, sim_bind, sim_lift, sim_ret, execute.
  repeat match goal with
         | |- context [match ?x with _ => _ end] => destruct x
         end; reflexivity.
Qed.

Lemma np_linalg_norm_zero (vz vx vy : R) :
  np_linalg_norm (vz, vx, vy) = 0 <-> (vz, vx, vy) = (0, 0, 0).
Proof.
  unfold np_linalg_norm. split.
  - intros H. apply sqrt_eq_0 in H; [| nra].
    assert (vz = 0) by nra. assert (vx = 0) by nra. assert (vy = 0) by nra.
    subst. reflexivity.
  - intros H. injection H as -> -> ->.
    replace (0 * 0 + 0 * 0 + 0 * 0) with 0 by ring. apply sqrt_0.
Qed.

Lemma np_divide_nonzero (x y : R) : y <> 0 -> np_divide x y = Fin (x / y).
Proof.
  intros Hy. unfold np_divide.
  destruct (Req_dec_T y 0); [contradiction | reflexivity].
Qed.

Lemma np_divide_zero_zero : np_divide 0 0 = NaN.
Proof.
  unfold np_divide.
  destruct (Req_dec_T 0 0) as [_ | H]; [reflexivity | contradiction].
Qed.

Lemma Q2R_zero : Q2R 0 = 0.
Proof. unfold Q2R. simpl. lra. Qed.

Lemma Q2R_one : Q2R 1 = 1.
Proof. unfold Q2R. simpl. lra. Qed.

(** On the counts of a run the estimator returns a value. *)
Lemma exp_from_counts_total (shots : Z) (counts : gmap string Z) :
  (0 < shots)%Z -> OutcomeCounts shots counts ->
  exists q : Q, exp_from_counts shots counts = Ok q.
Proof.
  intros Hs [H0 H1 Hsum]. rewrite exp_from_counts_lookup. unfold count in *.
  destruct (counts !! "0"), (counts !! "1"); simpl in *;
    rewrite ?py_truediv_ok by lia; eauto.
  lia.
Qed.

(** With parameters to build the circuits from and a simulator that
    returns the counts of [shots] shots, the three runs take place and
    give three estimates. *)
Lemma measure_bases_total {Rng : Type}
    (backend : Circuit -> Z -> Rng -> gmap string Z * Rng) (shots : Z)
    (params : list R) (w : World) :
  params <> [] -> (0 < shots)%Z ->
  (forall qc r, OutcomeCounts shots (fst (backend qc shots r))) ->
  exists e w',
    measure_bases backend shots params w = (Ok e, w') /\
    length (executed w') = (length (executed w) + 3)%nat.
Proof.
  intros Hp Hs Hb. destruct params as [|p0 rest]; [contradiction |].
  unfold measure_bases, sim_bind, sim_lift, sim_ret, execute.
  rewrite !get_var_form_cons. simpl.
  repeat match goal with
         | |- context [backend ?qc shots ?r] =>
             let H := fresh "H" in
             let counts := fresh "counts" in
             let r' := fresh "r" in
             pose proof (Hb qc r) as H;
             destruct (backend qc shots r) as [counts r'];
             destruct (exp_from_counts_total shots counts Hs H) as [? ->];
             simpl
         end.
  eexists _, _. split; [reflexivity |]. simpl.
  rewrite !length_app. simpl. lia.
Qed.

Lemma exp_from_counts_balanced :
  exp_from_counts NUM_SHOTS balanced_counts = Ok 0%Q.
Proof. vm_compute. reflexivity. Qed.

Lemma exp_from_counts_all_zero :
  exp_from_counts NUM_SHOTS {[ "0" := NUM_SHOTS ]} = Ok 1%Q.
Proof. vm_compute. reflexivity. Qed.

(** The three runs on a simulator that always returns [counts]. *)
Lemma measure_bases_constant (counts : gmap string Z) (q : Q) (p0 p1 : R) :
  exp_from_counts NUM_SHOTS counts = Ok q ->
  measure_bases (constant_backend counts) NUM_SHOTS [p0; p1] fresh_world =
  (Ok (q, q, q),
   {| rng := tt;
      executed := [[RY p0; RZ p1; Measure]; [RY p0; RZ p1; GH; Measure];
                   [RY p0; RZ p1; GZ; GS; GH; Measure]] |}).
Proof.
  intros Hq.
  unfold measure_bases, sim_bind, sim_lift, sim_ret, execute, constant_backend.
  rewrite !get_var_form_cons. simpl. rewrite Hq. reflexivity.
Qed.

(** C5: when the raw vector v = (v_Z, v_X, v_Y) of the three estimates
    is not the zero vector, the objective returns
    a*v_Z/|v| + b*v_X/|v| + c*v_Y/|v| with |v| the L2 norm
    sqrt (v_Z^2 + v_X^2 + v_Y^2); the components are divided by the norm
    whatever its value. *)
Theorem ham_exp_val_normalized {Rng : Type}
    (backend : Circuit -> Z -> Rng -> gmap string Z * Rng) (shots : Z)
    (params : list R) (a b c : R) (w w' : World) (e_z e_x e_y : Q) :
  measure_bases backend shots params w = (Ok (e_z, e_x, e_y), w') ->
  (Q2R e_z, Q2R e_x, Q2R e_y) <> (0, 0, 0) ->
  ham_exp_val backend shots params (a, b, c) w =
  (Ok (Fin (a * Q2R e_z
              / sqrt (Q2R e_z * Q2R e_z + Q2R e_x * Q2R e_x
                      + Q2R e_y * Q2R e_y)
            + b * Q2R e_x
              / sqrt (Q2R e_z * Q2R e_z + Q2R e_x * Q2R e_x
                      + Q2R e_y * Q2R e_y)
            + c * Q2R e_y
              / sqrt (Q2R e_z * Q2R e_z + Q2R e_x * Q2R e_x
                      + Q2R e_y * Q2R e_y))),
   w').
Proof.
  intros Hm Hv. rewrite ham_exp_val_measure_bases, Hm.
  assert (Hn : np_linalg_norm (Q2R e_z, Q2R e_x, Q2R e_y) <> 0).
  { intros H. apply Hv, np_linalg_norm_zero, H. }
  cbv zeta. rewrite !np_divide_nonzero by exact Hn.
  unfold np_linalg_norm in *.
  unfold py_sum. simpl. do 3 f_equal. field. exact Hn.
Qed.

Lemma ham_exp_val_normalized_witness :
  ham_exp_val (constant_backend {[ "0" := NUM_SHOTS ]}) NUM_SHOTS
    [1; 1] (1, 2, / 2) fresh_world =
  (Ok (Fin (1 * Q2R 1 / sqrt (Q2R 1 * Q2R 1 + Q2R 1 * Q2R 1 + Q2R 1 * Q2R 1)
            + 2 * Q2R 1
              / sqrt (Q2R 1 * Q2R 1 + Q2R 1 * Q2R 1 + Q2R 1 * Q2R 1)
            + / 2 * Q2R 1
              / sqrt (Q2R 1 * Q2R 1 + Q2R 1 * Q2R 1 + Q2R 1 * Q2R 1))),
   {| rng := tt;
      executed := [[RY 1; RZ 1; Measure]; [RY 1; RZ 1; GH; Measure];
                   [RY 1; RZ 1; GZ; GS; GH; Measure]] |}).
Proof.
  apply (ham_exp_val_normalized (constant_backend {[ "0" := NUM_SHOTS ]})).
  - apply measure_bases_constant, exp_from_counts_all_zero.
  - rewrite Q2R_one. intros H. injection H as H. lra.
Defined.

(** C3, as the claim states it, fails: on the zero vector the objective
    does not return a number.  For the angles (1, 1) both outcomes are
    possible in each basis; when every run gives 5000 times 0 and 5000
    times 1, the three estimates are 0 and the energy is NaN. *)
Lemma zero_vector_energy_is_nan :
  measure_bases (constant_backend balanced_counts) NUM_SHOTS [1; 1]
    fresh_world =
  (Ok (0%Q, 0%Q, 0%Q),
   {| rng := tt;
      executed := [[RY 1; RZ 1; Measure]; [RY 1; RZ 1; GH; Measure];
                   [RY 1; RZ 1; GZ; GS; GH; Measure]] |}) /\
  fst (ham_exp_val (constant_backend balanced_counts) NUM_SHOTS [1; 1]
         (1, 2, / 2) fresh_world) = Ok NaN /\
  ~ exists e : R,
      fst (ham_exp_val (constant_backend balanced_counts) NUM_SHOTS [1; 1]
             (1, 2, / 2) fresh_world) = Ok (Fin e).
Proof.
  pose proof (measure_bases_constant balanced_counts 0%Q 1 1
                exp_from_counts_balanced) as Hm.
  assert (He : fst (ham_exp_val (constant_backend balanced_counts) NUM_SHOTS
                      [1; 1] (1, 2, / 2) fresh_world) = Ok NaN).
  { rewrite ham_exp_val_measure_bases, Hm. cbv zeta.
    rewrite Q2R_zero.
    replace (np_linalg_norm (0, 0, 0)) with 0
      by (symmetry; apply np_linalg_norm_zero; reflexivity).
    rewrite np_divide_zero_zero. reflexivity. }
  split; [exact Hm |]. split; [exact He |].
  intros [e H]. rewrite He in H. discriminate H.
Qed.

(** C3, amended: the objective has no guard.  When the three raw
    estimates are zero it divides each of them by the zero norm, every
    normalized component is NaN, and the value returned is NaN for every
    coefficient triple; no exception is raised, and the three runs are
    those of any other evaluation. *)
Theorem ham_exp_val_zero_vector {Rng : Type}
    (backend : Circuit -> Z -> Rng -> gmap string Z * Rng) (shots : Z)
    (params : list R) (a b c : R) (w w' : World) (e_z e_x e_y : Q) :
  measure_bases backend shots params w = (Ok (e_z, e_x, e_y), w') ->
  (Q2R e_z, Q2R e_x, Q2R e_y) = (0, 0, 0) ->
  np_divide (Q2R e_z) (np_linalg_norm (Q2R e_z, Q2R e_x, Q2R e_y)) = NaN /\
  np_divide (Q2R e_x) (np_linalg_norm (Q2R e_z, Q2R e_x, Q2R e_y)) = NaN /\
  np_divide (Q2R e_y) (np_linalg_norm (Q2R e_z, Q2R e_x, Q2R e_y)) = NaN /\
  ham_exp_val backend shots params (a, b, c) w = (Ok NaN, w').
Proof.
  intros Hm Hv. rewrite ham_exp_val_measure_bases, Hm. cbv zeta.
  replace (np_linalg_norm (Q2R e_z, Q2R e_x, Q2R e_y)) with 0
    by (symmetry; apply np_linalg_norm_zero; exact Hv).
  injection Hv as -> -> ->. rewrite np_divide_zero_zero.
  repeat split; reflexivity.
Qed.

Lemma ham_exp_val_zero_vector_witness :
  ham_exp_val (constant_backend balanced_counts) NUM_SHOTS [1; 1] (1, 2, / 2)
    fresh_world =
  (Ok NaN,
   {| rng := tt;
      executed := [[RY 1; RZ 1; Measure]; [RY 1; RZ 1; GH; Measure];
                   [RY 1; RZ 1; GZ; GS; GH; Measure]] |}).
Proof.
  apply (ham_exp_val_zero_vector (constant_backend balanced_counts) NUM_SHOTS
           [1; 1] 1 2 (/ 2) fresh_world _ 0%Q 0%Q 0%Q).
  - apply measure_bases_constant, exp_from_counts_balanced.
  - rewrite Q2R_zero. reflexivity.
Defined.

(** ** The states the circuits prepare *)

Import Qubit.

Lemma inv_sqrt2_sqr : / sqrt 2 * / sqrt 2 = / 2.
Proof. rewrite <- Rinv_mult. f_equal. apply sqrt_sqrt. lra. Qed.

Ltac mat_unfold :=
  cbv [circuit_state circuit_unitary fold_left Mapp Mmul Madj Vscale
       gate_matrix prob0 Ry Rz Had PauliZ PauliX PauliY Sgate I2 ket0 ket1
       ket_plus_i ket_minus_i Cadd Csub Cneg Cmul Cconj Cnorm2 RtoC Ci
       m00 m01 m10 m11 fst snd].

Ltac split_entries :=
  repeat match goal with
         | |- mk_mat _ _ _ _ = mk_mat _ _ _ _ => apply (f_equal4 mk_mat)
         | |- (_, _) = (_, _) => apply (f_equal2 pair)
         end.

(** Arithmetic over the entries of the Hadamard matrix. *)
Ltac by_sqrt2 :=
  generalize inv_sqrt2_sqr; generalize (/ sqrt 2); intros h Hh; nra.

Lemma circuit_state_ry_rz (p0 p1 : R) :
  circuit_state [RY p0; RZ p1; Measure] = Mapp (Rz p1) (Mapp (Ry p0) ket0).
Proof. mat_unfold. split_entries; ring. Qed.

Lemma circuit_state_ry (p0 : R) :
  circuit_state [RY p0; Measure] = Mapp (Ry p0) ket0.
Proof. mat_unfold. split_entries; ring. Qed.

(** C4: the first parameter is the angle of the Ry rotation and the
    second, when there is one, the angle of the Rz rotation applied after
    it: the vector (p0, p1) prepares Rz(p1) Ry(p0)|0>.  At (pi, 0) the
    outcome 0 has probability 0, where Rz(pi) Ry(0)|0> gives it
    probability 1. *)
Theorem get_var_form_angle_order :
  (forall p0 p1,
     get_var_form [p0; p1] "z" = Ok [RY p0; RZ p1; Measure] /\
     circuit_state [RY p0; RZ p1; Measure] =
     Mapp (Rz p1) (Mapp (Ry p0) ket0)) /\
  (forall p0,
     get_var_form [p0] "z" = Ok [RY p0; Measure] /\
     circuit_state [RY p0; Measure] = Mapp (Ry p0) ket0) /\
  get_var_form [PI; 0] "z" = Ok [RY PI; RZ 0; Measure] /\
  prob0 (circuit_state [RY PI; RZ 0; Measure]) = 0 /\
  prob0 (Mapp (Rz PI) (Mapp (Ry 0) ket0)) = 1.
Proof.
  split; [intros; split; [reflexivity | apply circuit_state_ry_rz] |].
  split; [intros; split; [reflexivity | apply circuit_state_ry] |].
  split; [reflexivity |].
  split; rewrite ?circuit_state_ry_rz; mat_unfold;
    replace (0 / 2) with 0 by lra;
    rewrite ?cos_PI2, ?sin_PI2, ?cos_0, ?sin_0; ring.
Qed.

(** The unitary of the three gates appended for the basis Y. *)
Lemma y_basis_unitary :
  circuit_unitary [GZ; GS; GH] =
  mk_mat (/ sqrt 2, 0) (0, - / sqrt 2) (/ sqrt 2, 0) (0, / sqrt 2).
Proof. mat_unfold. split_entries; ring. Qed.

(** C6: the builder appends no gate before the measurement for the basis
    Z, one Hadamard for X, and Z, S, Hadamard in this order for Y.  The
    three gates for Y compose to H after the adjoint of S; this unitary
    sends the eigenvectors of Y to |0> and |1>, so that a measurement in
    the computational basis after it is a measurement of Y. *)
Theorem get_var_form_basis_change (p0 : R) (rest : list R) :
  let rot := RY p0 :: match rest with [] => [] | p1 :: _ => [RZ p1] end in
  get_var_form (p0 :: rest) "z" = Ok (rot ++ [Measure]) /\
  get_var_form (p0 :: rest) "x" = Ok (rot ++ [GH] ++ [Measure]) /\
  get_var_form (p0 :: rest) "y" = Ok (rot ++ [GZ; GS; GH] ++ [Measure]) /\
  circuit_unitary [] = I2 /\
  circuit_unitary [GH] = Had /\
  circuit_unitary [GZ; GS; GH] = Mmul Had (Madj Sgate) /\
  Mapp (circuit_unitary [GZ; GS; GH]) ket_plus_i = ket0 /\
  Mapp (circuit_unitary [GZ; GS; GH]) ket_minus_i = ket1 /\
  Mmul (Madj (circuit_unitary [GZ; GS; GH]))
       (Mmul PauliZ (circuit_unitary [GZ; GS; GH])) = PauliY.
Proof.
  cbv zeta. rewrite !get_var_form_cons.
  do 3 (split; [reflexivity |]).
  rewrite !y_basis_unitary.
  repeat match goal with |- _ /\ _ => split end;
    mat_unfold; split_entries; first [ring | by_sqrt2].
Qed.

(** ** The exact check *)

Lemma C_ring_theory :
  ring_theory (RtoC 0) (RtoC 1) Cadd Cmul Csub Cneg (@eq C).
Proof.
  constructor; intros; repeat match goal with z : C |- _ => destruct z end;
    unfold Csub, Cadd, Cmul, Cneg, RtoC; simpl; apply (f_equal2 pair); ring.
Qed.

Add Ring C_ring : C_ring_theory.

Lemma Cmul_integral (z w : C) : Cmul z w = RtoC 0 -> z = RtoC 0 \/ w = RtoC 0.
Proof.
  destruct z as [zr zi], w as [wr wi]. unfold Cmul, RtoC. simpl.
  intros H. injection H as Hr Hi.
  assert (Hn : (zr * zr + zi * zi) * (wr * wr + wi * wi) = 0) by nra.
  apply Rmult_integral in Hn. destruct Hn as [Hn | Hn]; [left | right];
    apply (f_equal2 pair); nra.
Qed.

Lemma C_eq_dec (z w : C) : {z = w} + {z <> w}.
Proof.
  destruct z as [zr zi], w as [wr wi].
  destruct (Req_dec_T zr wr) as [-> | Hr]; [| right; congruence].
  destruct (Req_dec_T zi wi) as [-> | Hi];
    [left; reflexivity | right; congruence].
Qed.

Lemma Vec2_eq_dec (v u : Vec2) : {v = u} + {v <> u}.
Proof.
  destruct v as [v0 v1], u as [u0 u1].
  destruct (C_eq_dec v0 u0) as [-> | H0]; [| right; congruence].
  destruct (C_eq_dec v1 u1) as [-> | H1];
    [left; reflexivity | right; congruence].
Qed.

(** The eigenvalues of a matrix are the roots of its characteristic
    polynomial. *)
Lemma eigenvalue_det (A : Mat2) (l : C) :
  eigenvalue A l <-> Cdet (Mshift A l) = RtoC 0.
Proof.
  destruct A as [a b c d]. unfold eigenvalue, Cdet, Mshift, Mapp, Vscale.
  cbn [m00 m01 m10 m11]. split.
  - intros [[x y] [Hv He]]. cbn [fst snd] in He.
    apply pair_equal_spec in He. destruct He as [H1 H2].
    set (det := Csub (Cmul (Csub a l) (Csub d l)) (Cmul b c)).
    assert (Hx : Cmul det x = RtoC 0).
    { transitivity
        (Csub (Cmul (Csub d l)
                 (Csub (Cadd (Cmul a x) (Cmul b y)) (Cmul l x)))
              (Cmul b (Csub (Cadd (Cmul c x) (Cmul d y)) (Cmul l y)))).
      - unfold det. ring.
      - rewrite H1, H2. ring. }
    assert (Hy : Cmul det y = RtoC 0).
    { transitivity
        (Csub (Cmul (Csub a l)
                 (Csub (Cadd (Cmul c x) (Cmul d y)) (Cmul l y)))
              (Cmul c (Csub (Cadd (Cmul a x) (Cmul b y)) (Cmul l x)))).
      - unfold det. ring.
      - rewrite H1, H2. ring. }
    destruct (Cmul_integral _ _ Hx) as [H | ->]; [exact H |].
    destruct (Cmul_integral _ _ Hy) as [H | ->]; [exact H |].
    contradiction Hv. reflexivity.
  - intros Hdet.
    assert (Hbc : Cmul b c = Cmul (Csub a l) (Csub d l)).
    { transitivity
        (Cadd (Cmul b c) (Csub (Cmul (Csub a l) (Csub d l)) (Cmul b c))).
      - rewrite Hdet. ring.
      - ring. }
    destruct (Vec2_eq_dec (b, Csub l a) (RtoC 0, RtoC 0)) as [E1 | N1].
    + apply pair_equal_spec in E1. destruct E1 as [Hb Hl]. 
      destruct (Vec2_eq_dec (Csub l d, c) (RtoC 0, RtoC 0)) as [E2 | N2].
      * apply pair_equal_spec in E2. destruct E2 as [Hd Hc].
        exists (RtoC 1, RtoC 0). split.
        { intros H. injection H as H. lra. }
        cbn [fst snd]. apply (f_equal2 pair).
        -- transitivity
             (Cadd (Cmul l (RtoC 1))
                (Cadd (Cmul (Cneg (Csub l a)) (RtoC 1)) (Cmul b (RtoC 0))));
             [ring |].
           rewrite Hl. ring.
        -- rewrite Hc. ring.
      * exists (Csub l d, c). split; [exact N2 |]. cbn [fst snd].
        apply (f_equal2 pair).
        -- transitivity
             (Cadd (Cmul a (Csub l d)) (Cmul (Csub a l) (Csub d l)));
             [rewrite <- Hbc; ring | ring].
        -- ring.
    + exists (b, Csub l a). split; [exact N1 |]. cbn [fst snd].
      apply (f_equal2 pair).
      * ring.
      * transitivity (Cadd (Cmul b c) (Cmul d (Csub l a))); [ring |].
        rewrite Hbc. ring.
Qed.

(** The two values of [np_linalg_eig] are the eigenvalues of a Hermitian
    matrix, and it has no other. *)
Lemma np_linalg_eig_spec (A : Mat2) (l : C) :
  Hermitian A ->
  eigenvalue A l <->
  l = fst (np_linalg_eig A) \/ l = snd (np_linalg_eig A).
Proof.
  intros HA. rewrite eigenvalue_det.
  destruct A as [[p pi] [qr qi] [sr si] [r ri]]. destruct l as [lr li].
  unfold Hermitian, Madj, Cconj in HA. cbn [m00 m01 m10 m11 fst snd] in HA.
  injection HA as Hpi Hsr Hsi _ _ Hri.
  assert (pi = 0) by lra. assert (ri = 0) by lra. subst pi ri sr qi.
  unfold np_linalg_eig, Cdet, Mshift, Cnorm2, Csub, Cadd, Cmul, Cneg, RtoC.
  cbn [m00 m01 m10 m11 fst snd].
  set (s := (p - r) / 2 * ((p - r) / 2) + (qr * qr + - si * - si)).
  assert (Hs : 0 <= s).
  { unfold s. generalize ((p - r) / 2). intros h. nra. }
  pose proof (sqrt_sqrt s Hs) as Hd. pose proof (sqrt_pos s) as Hd0.
  generalize dependent (sqrt s). intros d Hd Hd0.
  split.
  - intros H. apply pair_equal_spec in H. destruct H as [Hre Him].
    assert (Hli : li = 0).
    { destruct (Req_dec_T li 0) as [E | N]; [exact E |].
      assert (Hm : li * (2 * lr - p - r) = 0)
        by (ring_simplify; ring_simplify in Him; lra).
      apply Rmult_integral in Hm. destruct Hm as [E | E]; [contradiction |].
      assert (lr = (p + r) / 2) by lra. subst lr. unfold s in *. nra. }
    subst li.
    assert (Hprod : (lr - ((p + r) / 2 + d)) * (lr - ((p + r) / 2 - d)) = 0).
    { unfold s in *. nra. }
    apply Rmult_integral in Hprod. destruct Hprod as [E | E]; [left | right];
      apply (f_equal2 pair); lra.
  - intros [H | H]; apply pair_equal_spec in H; destruct H as [-> ->];
      apply (f_equal2 pair); unfold s in *; nra.
Qed.

Lemma py_min_real (x y : R) : py_min (RtoC x, RtoC y) = RtoC (Rmin x y).
Proof.
  unfold py_min, Cltb, RtoC, Rmin. cbn [fst snd].
  destruct (Rlt_dec y x) as [Hlt | Hge].
  - destruct (Rle_dec x y); [lra | reflexivity].
  - destruct (Req_dec_T y x) as [-> | Hne].
    + destruct (Rlt_dec 0 0); [lra |]. destruct (Rle_dec x x); reflexivity.
    + destruct (Rle_dec x y); [reflexivity | lra].
Qed.

Lemma ham_matrix_entries (a b c : R) :
  ham_matrix (a, b, c) = mk_mat (a, 0) (b, - c) (b, c) (- a, 0).
Proof.
  unfold ham_matrix, Csub, Cadd, Cmul, Cneg, Ci, RtoC. cbn [fst snd].
  apply (f_equal4 mk_mat); apply (f_equal2 pair); ring.
Qed.

Lemma ham_matrix_hermitian (a b c : R) : Hermitian (ham_matrix (a, b, c)).
Proof.
  rewrite ham_matrix_entries. unfold Hermitian, Madj, Cconj.
  cbn [m00 m01 m10 m11 fst snd].
  apply (f_equal4 mk_mat); apply (f_equal2 pair); ring.
Qed.

Lemma ham_matrix_eig (a b c : R) :
  np_linalg_eig (ham_matrix (a, b, c)) =
  (RtoC (sqrt (a * a + b * b + c * c)), RtoC (- sqrt (a * a + b * b + c * c))).
Proof.
  rewrite ham_matrix_entries. unfold np_linalg_eig, Cnorm2.
  cbn [m00 m01 m10 m11 fst snd].
  replace ((a - - a) / 2 * ((a - - a) / 2) + (b * b + - c * - c))
    with (a * a + b * b + c * c) by field.
  apply (f_equal2 pair); unfold RtoC; apply (f_equal2 pair); lra.
Qed.

Lemma exact_energy_value (a b c : R) :
  exact_energy (a, b, c) = RtoC (- sqrt (a * a + b * b + c * c)).
Proof.
  unfold exact_energy. rewrite ham_matrix_eig, py_min_real. f_equal.
  pose proof (sqrt_pos (a * a + b * b + c * c)). apply Rmin_right. lra.
Qed.

(** C7: the matrix of the exact check is [[a, b - ic], [b + ic, -a]]; it
    is Hermitian, and the value returned is its least eigenvalue,
    -sqrt(a^2 + b^2 + c^2): a function of the coefficients alone, with no
    run of the simulator.  For (1, 2, 0.5) it is -sqrt 5.25. *)
Theorem exact_energy_min_eigenvalue (a b c : R) :
  ham_matrix (a, b, c) = mk_mat (a, 0) (b, - c) (b, c) (- a, 0) /\
  Hermitian (ham_matrix (a, b, c)) /\
  exact_energy (a, b, c) = RtoC (- sqrt (a * a + b * b + c * c)) /\
  eigenvalue (ham_matrix (a, b, c)) (exact_energy (a, b, c)) /\
  (forall l, eigenvalue (ham_matrix (a, b, c)) l ->
     snd l = 0 /\ fst (exact_energy (a, b, c)) <= fst l) /\
  exact_energy (1, 2, 0.5) = RtoC (- sqrt 5.25).
Proof.
  split; [apply ham_matrix_entries |]. split; [apply ham_matrix_hermitian |].
  split; [apply exact_energy_value |]. split; [| split].
  - apply np_linalg_eig_spec; [apply ham_matrix_hermitian |].
    rewrite ham_matrix_eig, exact_energy_value. right. reflexivity.
  - intros l Hl. apply np_linalg_eig_spec in Hl; [| apply ham_matrix_hermitian].
    rewrite ham_matrix_eig in Hl. rewrite exact_energy_value.
    pose proof (sqrt_pos (a * a + b * b + c * c)).
    destruct Hl as [-> | ->]; cbn [fst snd RtoC]; split; lra.
  - rewrite exact_energy_value. do 2 f_equal. f_equal. lra.
Qed.

(** ** More on the estimator *)

Lemma py_truediv_raise (x y : Z) (e : PyExc) :
  py_truediv x y = Raise e <-> y = 0%Z /\ e = ZeroDivisionError.
Proof.
  unfold py_truediv. destruct (Z.eqb_spec y 0) as [-> | Hy]; split.
  - intros H. injection H as <-. split; reflexivity.
  - intros [_ ->]. reflexivity.
  - intros H. discriminate H.
  - intros [H _]. contradiction.
Qed.

(** X1: the estimator fails with a KeyError exactly when neither '0' nor
    '1' is a key of the mapping, and the key reported is then '1'; it
    fails with a ZeroDivisionError exactly when the shot budget is 0 and
    one of the keys is present. *)
Theorem exp_from_counts_failures (shots : Z) (counts : gmap string Z) :
  (forall key,
     exp_from_counts shots counts = Raise (KeyError key) <->
     counts !! "0" = None /\ counts !! "1" = None /\ key = "1") /\
  (exp_from_counts shots counts = Raise ZeroDivisionError <->
     shots = 0%Z /\ (is_Some (counts !! "0") \/ is_Some (counts !! "1"))).
Proof.
  rewrite exp_from_counts_lookup.
  destruct (counts !! "0") as [c0|], (counts !! "1") as [c1|].
  1-3: split;
    [ intros key; split;
      [ intros H; apply py_truediv_raise in H; destruct H as [_ H];
        discriminate H
      | intros (H1 & H2 & _); discriminate ]
    | split;
      [ intros H; apply py_truediv_raise in H; destruct H as [H _];
        split; [exact H | eauto]
      | intros [H _]; apply py_truediv_raise; auto ] ].
  split.
  - intros key. split.
    + intros H. injection H as <-. auto.
    + intros (_ & _ & ->). reflexivity.
  - split; [intros H; discriminate H |].
    intros [_ [[? H] | [? H]]]; discriminate H.
Qed.

(** With one of the two keys in the mapping, the three branches of the
    estimator compute one formula, an absent key counting as zero. *)
Lemma exp_from_counts_count (shots : Z) (counts : gmap string Z) :
  is_Some (counts !! "0") \/ is_Some (counts !! "1") ->
  exp_from_counts shots counts =
  py_truediv (count counts "0" - count counts "1") shots.
Proof.
  intros Hkey. rewrite exp_from_counts_lookup. unfold count.
  destruct (counts !! "0") as [c0|], (counts !! "1") as [c1|]; simpl.
  - reflexivity.
  - f_equal; lia.
  - f_equal; lia.
  - destruct Hkey as [[? H] | [? H]]; discriminate H.
Qed.



Lemma Qred_quotient_opp (x y : Z) :
  Qred (inject_Z (- x) / inject_Z y) = (- Qred (inject_Z x / inject_Z y))%Q.
Proof.
  rewrite <- Qred_opp. apply Qred_complete.
  rewrite inject_Z_opp. unfold Qdiv. ring.
Qed.

Lemma py_truediv_opp (x y : Z) :
  py_truediv (- x) y =
  match py_truediv x y with Ok q => Ok (- q)%Q | Raise e => Raise e end.
Proof.
  unfold py_truediv. destruct (y =? 0)%Z; [reflexivity |].
  f_equal. apply Qred_quotient_opp.
Qed.

(** X3: exchanging the counts of the two outcome labels changes the sign
    of the estimate and nothing else; a failure stays the same failure. *)
Theorem exp_from_counts_swap (shots : Z) (counts counts' : gmap string Z) :
  counts' !! "0" = counts !! "1" ->
  counts' !! "1" = counts !! "0" ->
  exp_from_counts shots counts' =
  match exp_from_counts shots counts with
  | Ok q => Ok (- q)%Q
  | Raise e => Raise e
  end.
Proof.
  intros H0 H1. rewrite !exp_from_counts_lookup, H0, H1.
  destruct (counts !! "0") as [c0|], (counts !! "1") as [c1|].
  - rewrite <- py_truediv_opp. f_equal; lia.
  - rewrite <- py_truediv_opp. f_equal; lia.
  - replace c1 with (- (-1 * c1))%Z at 1 by lia. apply py_truediv_opp.
  - reflexivity.
Qed.

Lemma exp_from_counts_swap_witness :
  exp_from_counts NUM_SHOTS (<[ "0" := 7500%Z ]> {[ "1" := 2500%Z ]}) =
  match exp_from_counts NUM_SHOTS (<[ "0" := 2500%Z ]> {[ "1" := 7500%Z ]}) with
  | Ok q => Ok (- q)%Q
  | Raise e => Raise e
  end.
Proof.
  apply (exp_from_counts_swap NUM_SHOTS
           (<[ "0" := 2500%Z ]> {[ "1" := 7500%Z ]})
           (<[ "0" := 7500%Z ]> {[ "1" := 2500%Z ]}));
    vm_compute; reflexivity.
Defined.

Lemma Qred_quotient_zero (x y : Z) :
  y <> 0%Z -> Qred (inject_Z x / inject_Z y) = 0%Q <-> x = 0%Z.
Proof.
  intros Hy. change 0%Q with (Qred 0) at 1. rewrite Qred_eq_iff. split.
  - intros H.
    assert (E : (inject_Z x == 0 * inject_Z y)%Q).
    { rewrite <- H. field. apply inject_Z_nonzero, Hy. }
    rewrite Qmult_0_l in E. unfold Qeq in E. simpl in E. lia.
  - intros ->. unfold Qdiv. change (inject_Z 0) with 0%Q. ring.
Qed.

(** X4: for a positive shot budget below 2^1074, the range in which a
    nonzero quotient of two integers is not rounded to zero, the estimate
    is exactly zero if and only if the two outcomes were seen equally
    often. *)
Theorem exp_from_counts_zero_iff_balanced (shots : Z) (counts : gmap string Z) :
  (0 < shots < 2 ^ 1074)%Z ->
  is_Some (counts !! "0") \/ is_Some (counts !! "1") ->
  exp_from_counts shots counts = Ok 0%Q <-> count counts "0" = count counts "1".
Proof.
  intros [Hs _] Hkey. rewrite exp_from_counts_count by exact Hkey.
  rewrite py_truediv_ok by lia. split.
  - intros H. injection H as H. apply Qred_quotient_zero in H; lia.
  - intros H. f_equal. apply Qred_quotient_zero; lia.
Qed.

Lemma exp_from_counts_zero_iff_balanced_witness :
  exp_from_counts NUM_SHOTS balanced_counts = Ok 0%Q <->
  count balanced_counts "0" = count balanced_counts "1".
Proof.
  apply (exp_from_counts_zero_iff_balanced NUM_SHOTS balanced_counts).
  - unfold NUM_SHOTS. split; [lia |].
    apply (Z.lt_le_trans _ (2 ^ 14)); [reflexivity |].
    apply Z.pow_le_mono_r; lia.
  - left. vm_compute. eauto.
Defined.

(** ** The shape of the circuits *)

(** X5: a circuit the builder returns starts with the Ry rotation by the
    first parameter and ends with the measurement; nothing is measured
    before, no second Ry occurs, and at most four gates lie between. *)
Theorem get_var_form_shape (params : list R) (meas_axis : string)
    (qc : Circuit) :
  get_var_form params meas_axis = Ok qc ->
  exists p0 body,
    nth_error params 0 = Some p0 /\
    qc = RY p0 :: body ++ [Measure] /\
    ~ In Measure body /\
    (forall t, ~ In (RY t) body) /\
    (length body <= 4)%nat.
Proof.
  destruct params as [|p0 rest]; [intros H; discriminate H |].
  rewrite get_var_form_cons. intros H. injection H as <-.
  exists p0,
    (match rest with [] => [] | p1 :: _ => [RZ p1] end
     ++ (if String.eqb meas_axis "x" then [GH]
         else if String.eqb meas_axis "y" then [GZ; GS; GH] else [])).
  split; [reflexivity |].
  split; [simpl; rewrite <- app_assoc; reflexivity |].
  destruct rest as [|p1 rest];
    destruct (String.eqb meas_axis "x"), (String.eqb meas_axis "y");
    simpl; (split; [intros H | split; [intros t H | lia]]);
    intuition discriminate.
Qed.

Lemma get_var_form_shape_witness :
  exists p0 body,
    nth_error [1; 2] 0 = Some p0 /\
    [RY 1; RZ 2; GZ; GS; GH; Measure] = RY p0 :: body ++ [Measure] /\
    ~ In Measure body /\
    (forall t, ~ In (RY t) body) /\
    (length body <= 4)%nat.
Proof.
  apply (get_var_form_shape [1; 2] "y"). reflexivity.
Defined.


(** ** The circuits as operators *)

Ltac qubit_unfold :=
  cbv [exact_exp_val expectation Cinner Madd Mscale prob1
       circuit_state circuit_unitary fold_left Mapp Mmul Madj Vscale
       gate_matrix prob0 Ry Rz Had PauliZ PauliX PauliY Sgate I2 ket0 ket1
       ket_plus_i ket_minus_i Cadd Csub Cneg Cmul Cconj Cnorm2 RtoC Ci
       m00 m01 m10 m11 fst snd app].

Lemma Mmul_assoc (A B D : Mat2) : Mmul A (Mmul B D) = Mmul (Mmul A B) D.
Proof.
  destruct A, B, D. unfold Mmul. cbn [m00 m01 m10 m11].
  apply (f_equal4 mk_mat); ring.
Qed.

Lemma Mmul_I2_r (A : Mat2) : Mmul A I2 = A.
Proof.
  destruct A. unfold Mmul, I2. cbn [m00 m01 m10 m11].
  apply (f_equal4 mk_mat); ring.
Qed.

Lemma Mmul_I2_l (A : Mat2) : Mmul I2 A = A.
Proof.
  destruct A. unfold Mmul, I2. cbn [m00 m01 m10 m11].
  apply (f_equal4 mk_mat); ring.
Qed.

Lemma Mapp_Mmul (A B : Mat2) (v : Vec2) :
  Mapp (Mmul A B) v = Mapp A (Mapp B v).
Proof.
  destruct A, B, v. unfold Mapp, Mmul. cbn [m00 m01 m10 m11 fst snd].
  apply (f_equal2 pair); ring.
Qed.

Lemma Mapp_I2 (v : Vec2) : Mapp I2 v = v.
Proof.
  destruct v. unfold Mapp, I2. cbn [m00 m01 m10 m11 fst snd].
  apply (f_equal2 pair); ring.
Qed.

Lemma fold_gates_from (qc : Circuit) (U : Mat2) :
  fold_left (fun U g => Mmul (gate_matrix g) U) qc U =
  Mmul (circuit_unitary qc) U.
Proof.
  unfold circuit_unitary. revert U.
  induction qc as [|g qc IH]; intros U; simpl.
  - symmetry. apply Mmul_I2_l.
  - rewrite IH, (IH (Mmul (gate_matrix g) I2)), Mmul_I2_r.
    apply Mmul_assoc.
Qed.

(** Appending gates composes the unitaries, the gates appended last
    acting last. *)
Lemma circuit_unitary_app (q1 q2 : Circuit) :
  circuit_unitary (q1 ++ q2) = Mmul (circuit_unitary q2) (circuit_unitary q1).
Proof.
  unfold circuit_unitary at 1. rewrite fold_left_app.
  fold (circuit_unitary q1). apply fold_gates_from.
Qed.

Lemma circuit_state_app (q1 q2 : Circuit) :
  circuit_state (q1 ++ q2) = Mapp (circuit_unitary q2) (circuit_state q1).
Proof.
  unfold circuit_state. rewrite circuit_unitary_app. apply Mapp_Mmul.
Qed.

Lemma circuit_unitary_measure : circuit_unitary [Measure] = I2.
Proof. unfold circuit_unitary. simpl. apply Mmul_I2_r. Qed.

Lemma circuit_state_measure (qc : Circuit) :
  circuit_state (qc ++ [Measure]) = circuit_state qc.
Proof. rewrite circuit_state_app, circuit_unitary_measure. apply Mapp_I2. Qed.

(** Measuring after a unitary [U] measures the operator [U^* Z U]. *)
Lemma measure_after_unitary (U : Mat2) (v : Vec2) :
  prob0 (Mapp U v) - prob1 (Mapp U v) =
  fst (expectation (Mmul (Madj U) (Mmul PauliZ U)) v).
Proof.
  destruct U as [[a0 a1] [b0 b1] [c0 c1] [d0 d1]], v as [[x0 x1] [y0 y1]].
  qubit_unfold. ring.
Qed.

Lemma expectation_real_hermitian (A : Mat2) (v : Vec2) :
  Hermitian A -> snd (expectation A v) = 0.
Proof.
  destruct A as [[a0 a1] [b0 b1] [c0 c1] [d0 d1]], v as [[x0 x1] [y0 y1]].
  unfold Hermitian, Madj, Cconj. cbn [m00 m01 m10 m11 fst snd].
  intros H. injection H as H1 H2 H3 H4 H5 H6.
  assert (a1 = 0) by lra. assert (d1 = 0) by lra. subst.
  qubit_unfold. ring.
Qed.

Lemma hadamard_conjugates_Z : Mmul (Madj Had) (Mmul PauliZ Had) = PauliX.
Proof. mat_unfold. split_entries; by_sqrt2. Qed.

Lemma y_basis_conjugates_Z :
  Mmul (Madj (circuit_unitary [GZ; GS; GH]))
       (Mmul PauliZ (circuit_unitary [GZ; GS; GH])) = PauliY.
Proof. rewrite y_basis_unitary. mat_unfold. split_entries; by_sqrt2. Qed.

Lemma identity_conjugates_Z : Mmul (Madj I2) (Mmul PauliZ I2) = PauliZ.
Proof. mat_unfold. split_entries; ring. Qed.

(** The three circuits of one evaluation of the objective. *)
Lemma basis_circuits (p0 : R) (rest : list R) :
  let rot := RY p0 :: match rest with [] => [] | p1 :: _ => [RZ p1] end in
  get_var_form (p0 :: rest) "z" = Ok ((rot ++ []) ++ [Measure]) /\
  get_var_form (p0 :: rest) "x" = Ok ((rot ++ [GH]) ++ [Measure]) /\
  get_var_form (p0 :: rest) "y" = Ok ((rot ++ [GZ; GS; GH]) ++ [Measure]).
Proof.
  cbv zeta. rewrite !get_var_form_cons. simpl.
  rewrite <- !app_assoc. repeat split; reflexivity.
Qed.

Lemma exact_exp_val_basis (rot basis : Circuit) :
  exact_exp_val ((rot ++ basis) ++ [Measure]) =
  fst (expectation (Mmul (Madj (circuit_unitary basis))
                      (Mmul PauliZ (circuit_unitary basis)))
         (circuit_state rot)).
Proof.
  unfold exact_exp_val.
  rewrite circuit_state_measure, circuit_state_app.
  apply measure_after_unitary.
Qed.

Lemma expectation_ham_matrix (a b c : R) (v : Vec2) :
  fst (expectation (ham_matrix (a, b, c)) v) =
  a * fst (expectation PauliZ v) + b * fst (expectation PauliX v)
  + c * fst (expectation PauliY v).
Proof.
  destruct v as [[x0 x1] [y0 y1]]. unfold ham_matrix. qubit_unfold. ring.
Qed.

Lemma circuit_unitary_nil : circuit_unitary [] = I2.
Proof. reflexivity. Qed.

Lemma circuit_unitary_hadamard : circuit_unitary [GH] = Had.
Proof. unfold circuit_unitary. simpl. apply Mmul_I2_r. Qed.

Lemma half_angle (t : R) :
  cos t = cos (t / 2) * cos (t / 2) - sin (t / 2) * sin (t / 2) /\
  sin t = 2 * sin (t / 2) * cos (t / 2) /\
  sin (t / 2) * sin (t / 2) + cos (t / 2) * cos (t / 2) = 1.
Proof.
  split; [| split].
  - replace t with (2 * (t / 2)) at 1 by field. apply cos_2a.
  - replace t with (2 * (t / 2)) at 1 by field. apply sin_2a.
  - apply (sin2_cos2 (t / 2)).
Qed.

(** The values the three estimates tend to, by the two angles. *)
Lemma exact_exp_val_two_angles (p0 p1 : R) :
  exact_exp_val [RY p0; RZ p1; Measure] = cos p0 /\
  exact_exp_val [RY p0; RZ p1; GH; Measure] = sin p0 * cos p1 /\
  exact_exp_val [RY p0; RZ p1; GZ; GS; GH; Measure] = sin p0 * sin p1.
Proof.
  change [RY p0; RZ p1; Measure]
    with (([RY p0; RZ p1] ++ []) ++ [Measure]).
  change [RY p0; RZ p1; GH; Measure]
    with (([RY p0; RZ p1] ++ [GH]) ++ [Measure]).
  change [RY p0; RZ p1; GZ; GS; GH; Measure]
    with (([RY p0; RZ p1] ++ [GZ; GS; GH]) ++ [Measure]).
  rewrite !exact_exp_val_basis, y_basis_conjugates_Z.
  rewrite circuit_unitary_hadamard, circuit_unitary_nil.
  rewrite hadamard_conjugates_Z, identity_conjugates_Z.
  destruct (half_angle p0) as (-> & -> & H0).
  destruct (half_angle p1) as (-> & -> & H1).
  qubit_unfold.
  revert H0 H1.
  generalize (cos (p0 / 2)) (sin (p0 / 2)) (cos (p1 / 2)) (sin (p1 / 2)).
  intros c0 s0 c1 s1 H0 H1.
  split; [| split].
  - transitivity ((c0 * c0 - s0 * s0) * (s1 * s1 + c1 * c1));
      [ring | rewrite H1; ring].
  - ring.
  - ring.
Qed.

(** The same for the single angle: no rotation about Z takes place. *)
Lemma exact_exp_val_one_angle (p0 : R) :
  exact_exp_val [RY p0; Measure] = cos p0 /\
  exact_exp_val [RY p0; GH; Measure] = sin p0 /\
  exact_exp_val [RY p0; GZ; GS; GH; Measure] = 0.
Proof.
  change [RY p0; Measure] with (([RY p0] ++ []) ++ [Measure]).
  change [RY p0; GH; Measure] with (([RY p0] ++ [GH]) ++ [Measure]).
  change [RY p0; GZ; GS; GH; Measure]
    with (([RY p0] ++ [GZ; GS; GH]) ++ [Measure]).
  rewrite !exact_exp_val_basis, y_basis_conjugates_Z.
  rewrite circuit_unitary_hadamard, circuit_unitary_nil.
  rewrite hadamard_conjugates_Z, identity_conjugates_Z.
  destruct (half_angle p0) as (-> & -> & H0).
  qubit_unfold.
  generalize (cos (p0 / 2)) (sin (p0 / 2)). intros c0 s0.
  split; [| split]; ring.
Qed.

Lemma exact_exp_val_params (p0 : R) (rest : list R) :
  let rot := RY p0 :: match rest with [] => [] | p1 :: _ => [RZ p1] end in
  let p1 := match rest with [] => 0 | p1 :: _ => p1 end in
  exact_exp_val ((rot ++ []) ++ [Measure]) = cos p0 /\
  exact_exp_val ((rot ++ [GH]) ++ [Measure]) = sin p0 * cos p1 /\
  exact_exp_val ((rot ++ [GZ; GS; GH]) ++ [Measure]) = sin p0 * sin p1.
Proof.
  destruct rest as [|p1 rest]; cbv zeta.
  - destruct (exact_exp_val_one_angle p0) as (Hz & Hx & Hy).
    rewrite cos_0, sin_0, Rmult_1_r, Rmult_0_r. auto.
  - apply exact_exp_val_two_angles.
Qed.

Lemma sphere_point (p0 p1 : R) :
  cos p0 * cos p0 + sin p0 * cos p1 * (sin p0 * cos p1)
  + sin p0 * sin p1 * (sin p0 * sin p1) = 1.
Proof.
  pose proof (sin2_cos2 p0) as H0. pose proof (sin2_cos2 p1) as H1.
  unfold Rsqr in *.
  transitivity (cos p0 * cos p0
                + sin p0 * sin p0 * (sin p1 * sin p1 + cos p1 * cos p1));
    [ring | rewrite H1; lra].
Qed.

Lemma cauchy_schwarz3 (a b c x y z : R) :
  x * x + y * y + z * z = 1 ->
  - sqrt (a * a + b * b + c * c) <= a * x + b * y + c * z
  <= sqrt (a * a + b * b + c * c).
Proof.
  intros Hu.
  assert (Hn : 0 <= a * a + b * b + c * c) by nra.
  pose proof (sqrt_pos (a * a + b * b + c * c)) as Hs0.
  pose proof (sqrt_sqrt _ Hn) as Hs.
  generalize dependent (sqrt (a * a + b * b + c * c)). intros s Hs0 Hs.
  assert (Hcs : (a * x + b * y + c * z) * (a * x + b * y + c * z) <= s * s).
  { rewrite Hs.
    replace (a * a + b * b + c * c)
      with ((a * a + b * b + c * c) * (x * x + y * y + z * z))
      by (rewrite Hu; ring).
    pose proof (Rle_0_sqr (a * y - b * x)).
    pose proof (Rle_0_sqr (a * z - c * x)).
    pose proof (Rle_0_sqr (b * z - c * y)).
    unfold Rsqr in *. nra. }
  split; nra.
Qed.

(** X6: without sampling noise, the estimates of the three circuits are
    the expectation values of the Pauli operators Z, X and Y in the one
    state the rotations prepare. *)
Theorem basis_circuits_measure_paulis (p0 : R) (rest : list R) :
  exists qz qx qy,
    get_var_form (p0 :: rest) "z" = Ok qz /\
    get_var_form (p0 :: rest) "x" = Ok qx /\
    get_var_form (p0 :: rest) "y" = Ok qy /\
    exact_exp_val qz = fst (expectation PauliZ (circuit_state qz)) /\
    exact_exp_val qx = fst (expectation PauliX (circuit_state qz)) /\
    exact_exp_val qy = fst (expectation PauliY (circuit_state qz)).
Proof.
  destruct (basis_circuits p0 rest) as (Hz & Hx & Hy).
  eexists _, _, _. split; [exact Hz |]. split; [exact Hx |].
  split; [exact Hy |].
  rewrite !exact_exp_val_basis, circuit_state_measure, app_nil_r.
  rewrite y_basis_conjugates_Z, circuit_unitary_hadamard, circuit_unitary_nil.
  rewrite hadamard_conjugates_Z, identity_conjugates_Z. auto.
Qed.

(** X9: without sampling noise, the weighted sum of the three estimates
    is the expectation value of the matrix of the exact check in the
    state the rotations prepare, and this value is real. *)
Theorem noiseless_energy_is_expectation (p0 : R) (rest : list R) (a b c : R) :
  exists qz qx qy,
    get_var_form (p0 :: rest) "z" = Ok qz /\
    get_var_form (p0 :: rest) "x" = Ok qx /\
    get_var_form (p0 :: rest) "y" = Ok qy /\
    expectation (ham_matrix (a, b, c)) (circuit_state qz) =
    RtoC (a * exact_exp_val qz + b * exact_exp_val qx + c * exact_exp_val qy).
Proof.
  destruct (basis_circuits p0 rest) as (Hz & Hx & Hy).
  eexists _, _, _. split; [exact Hz |]. split; [exact Hx |].
  split; [exact Hy |].
  apply injective_projections.
  - rewrite expectation_ham_matrix.
    rewrite !exact_exp_val_basis, circuit_state_measure, app_nil_r.
    rewrite y_basis_conjugates_Z, circuit_unitary_hadamard,
      circuit_unitary_nil, hadamard_conjugates_Z, identity_conjugates_Z.
    reflexivity.
  - apply expectation_real_hermitian, ham_matrix_hermitian.
Qed.

(** X7: without sampling noise, the three estimates for the parameters
    (p0, p1) are cos p0, sin p0 cos p1 and sin p0 sin p1; with the one
    parameter p0 they are cos p0, sin p0 and 0. *)
Theorem exact_exp_val_angles (p0 : R) (rest : list R) :
  let p1 := match rest with [] => 0 | p1 :: _ => p1 end in
  exists qz qx qy,
    get_var_form (p0 :: rest) "z" = Ok qz /\
    get_var_form (p0 :: rest) "x" = Ok qx /\
    get_var_form (p0 :: rest) "y" = Ok qy /\
    exact_exp_val qz = cos p0 /\
    exact_exp_val qx = sin p0 * cos p1 /\
    exact_exp_val qy = sin p0 * sin p1.
Proof.
  destruct (basis_circuits p0 rest) as (Hz & Hx & Hy).
  destruct (exact_exp_val_params p0 rest) as (Ez & Ex & Ey).
  eexists _, _, _. split; [exact Hz |]. split; [exact Hx |].
  split; [exact Hy |]. auto.
Qed.

(** X8: without sampling noise the vector of the three estimates has
    norm 1, so that the division by the norm changes nothing. *)
Theorem exact_exp_val_unit_norm (p0 : R) (rest : list R) :
  exists qz qx qy,
    get_var_form (p0 :: rest) "z" = Ok qz /\
    get_var_form (p0 :: rest) "x" = Ok qx /\
    get_var_form (p0 :: rest) "y" = Ok qy /\
    np_linalg_norm (exact_exp_val qz, exact_exp_val qx, exact_exp_val qy) = 1.
Proof.
  destruct (basis_circuits p0 rest) as (Hz & Hx & Hy).
  destruct (exact_exp_val_params p0 rest) as (Ez & Ex & Ey).
  eexists _, _, _. split; [exact Hz |]. split; [exact Hx |].
  split; [exact Hy |].
  unfold np_linalg_norm. rewrite Ez, Ex, Ey, sphere_point. apply sqrt_1.
Qed.

(** X10: without sampling noise, no parameter vector gives an energy
    below the least eigenvalue the exact check returns. *)
Theorem noiseless_energy_bounded_below (p0 : R) (rest : list R) (a b c : R) :
  exists qz qx qy,
    get_var_form (p0 :: rest) "z" = Ok qz /\
    get_var_form (p0 :: rest) "x" = Ok qx /\
    get_var_form (p0 :: rest) "y" = Ok qy /\
    fst (exact_energy (a, b, c)) <=
    a * exact_exp_val qz + b * exact_exp_val qx + c * exact_exp_val qy.
Proof.
  destruct (basis_circuits p0 rest) as (Hz & Hx & Hy).
  destruct (exact_exp_val_params p0 rest) as (Ez & Ex & Ey).
  eexists _, _, _. split; [exact Hz |]. split; [exact Hx |].
  split; [exact Hy |].
  rewrite exact_energy_value, Ez, Ex, Ey. cbn [fst RtoC].
  apply cauchy_schwarz3, sphere_point.
Qed.

(** X11: with a single parameter and a nonzero coefficient of Y, the
    energy without sampling noise stays strictly above the least
    eigenvalue, whatever the angle. *)
Theorem one_angle_misses_ground_energy (p0 a b c : R) :
  c <> 0 ->
  exists qz qx qy,
    get_var_form [p0] "z" = Ok qz /\
    get_var_form [p0] "x" = Ok qx /\
    get_var_form [p0] "y" = Ok qy /\
    fst (exact_energy (a, b, c)) <
    a * exact_exp_val qz + b * exact_exp_val qx + c * exact_exp_val qy.
Proof.
  intros Hc.
  destruct (basis_circuits p0 []) as (Hz & Hx & Hy).
  destruct (exact_exp_val_params p0 []) as (Ez & Ex & Ey).
  eexists _, _, _. split; [exact Hz |]. split; [exact Hx |].
  split; [exact Hy |].
  rewrite exact_energy_value, Ez, Ex, Ey. cbn [fst RtoC].
  rewrite cos_0, sin_0, Rmult_1_r, !Rmult_0_r, Rplus_0_r.
  assert (Hlt : sqrt (a * a + b * b + 0 * 0) < sqrt (a * a + b * b + c * c)).
  { apply sqrt_lt_1; nra. }
  pose proof (cauchy_schwarz3 a b 0 (cos p0) (sin p0) 0) as Hcs.
  destruct Hcs as [Hlo _].
  { pose proof (sin2_cos2 p0) as H. unfold Rsqr in H. lra. }
  lra.
Qed.

Lemma one_angle_misses_ground_energy_witness :
  exists qz qx qy,
    get_var_form [0] "z" = Ok qz /\
    get_var_form [0] "x" = Ok qx /\
    get_var_form [0] "y" = Ok qy /\
    fst (exact_energy (1, 2, 0.5)) <
    1 * exact_exp_val qz + 2 * exact_exp_val qx + 0.5 * exact_exp_val qy.
Proof.
  apply (one_angle_misses_ground_energy 0 1 2 0.5). lra.
Defined.

(** Every point of the unit circle is (cos t, sin t) for an angle t. *)
Lemma unit_circle_angle (x y : R) :
  x * x + y * y = 1 -> exists t, cos t = x /\ sin t = y.
Proof.
  intros Hu.
  assert (Hx : -1 <= x <= 1) by nra.
  pose proof (cos_acos x Hx) as Hc. pose proof (sin_acos x Hx) as Hs.
  assert (Hsq : sqrt (1 - x²) * sqrt (1 - x²) = y * y).
  { rewrite sqrt_sqrt; unfold Rsqr; nra. }
  pose proof (sqrt_pos (1 - x²)) as Hpos.
  destruct (Rle_dec 0 y) as [Hy | Hy].
  - exists (acos x). split; [exact Hc |]. rewrite Hs. nra.
  - exists (- acos x). rewrite cos_neg, sin_neg, Hc, Hs. split; [reflexivity |].
    nra.
Qed.

Lemma ground_angles (a b c : R) :
  exists p0 p1,
    a * cos p0 + b * (sin p0 * cos p1) + c * (sin p0 * sin p1) =
    - sqrt (a * a + b * b + c * c).
Proof.
  assert (Hn : 0 <= a * a + b * b + c * c) by nra.
  pose proof (sqrt_pos (a * a + b * b + c * c)) as HN0.
  pose proof (sqrt_sqrt _ Hn) as HN.
  generalize dependent (sqrt (a * a + b * b + c * c)). intros N HN0 HN.
  assert (Hr : 0 <= b * b + c * c) by nra.
  pose proof (sqrt_pos (b * b + c * c)) as Hr0.
  pose proof (sqrt_sqrt _ Hr) as Hrr.
  generalize dependent (sqrt (b * b + c * c)). intros r Hr0 Hrr.
  destruct (Req_dec_T N 0) as [-> | HNz].
  - exists 0, 0. assert (a = 0) by nra. assert (b = 0) by nra.
    assert (c = 0) by nra. subst. ring.
  - destruct (unit_circle_angle (- a / N) (r / N)) as (p0 & Hc0 & Hs0).
    { replace (- a / N * (- a / N) + r / N * (r / N))
        with ((a * a + r * r) / (N * N)) by (field; exact HNz).
      replace (a * a + r * r) with (N * N) by lra. field. exact HNz. }
    destruct (Req_dec_T r 0) as [-> | Hrz].
    + exists p0, 0. assert (b = 0) by nra. assert (c = 0) by nra. subst.
      rewrite Hc0.
      replace (a * (- a / N) + 0 * (sin p0 * cos 0) + 0 * (sin p0 * sin 0))
        with (- (a * a + 0 * 0 + 0 * 0) / N) by (field; exact HNz).
      rewrite <- HN. field. exact HNz.
    + destruct (unit_circle_angle (- b / r) (- c / r)) as (p1 & Hc1 & Hs1).
      { replace (- b / r * (- b / r) + - c / r * (- c / r))
          with ((b * b + c * c) / (r * r)) by (field; exact Hrz).
        rewrite <- Hrr. field. exact Hrz. }
      exists p0, p1. rewrite Hc0, Hs0, Hc1, Hs1.
      replace (a * (- a / N) + b * (r / N * (- b / r))
               + c * (r / N * (- c / r)))
        with (- (a * a + b * b + c * c) / N) by (field; split; assumption).
      rewrite <- HN. field. exact HNz.
Qed.

(** X12: for every coefficient triple there are two angles for which the
    energy without sampling noise is the least eigenvalue the exact check
    returns. *)
Theorem two_angles_reach_ground_energy (a b c : R) :
  exists p0 p1 qz qx qy,
    get_var_form [p0; p1] "z" = Ok qz /\
    get_var_form [p0; p1] "x" = Ok qx /\
    get_var_form [p0; p1] "y" = Ok qy /\
    a * exact_exp_val qz + b * exact_exp_val qx + c * exact_exp_val qy =
    fst (exact_energy (a, b, c)).
Proof.
  destruct (ground_angles a b c) as (p0 & p1 & H).
  destruct (basis_circuits p0 [p1]) as (Hz & Hx & Hy).
  destruct (exact_exp_val_params p0 [p1]) as (Ez & Ex & Ey).
  exists p0, p1. eexists _, _, _. split; [exact Hz |]. split; [exact Hx |].
  split; [exact Hy |].
  rewrite exact_energy_value, Ez, Ex, Ey. cbn [fst RtoC]. exact H.
Qed.

(** ** More on the energy objective *)


(** The three runs and the three estimates, written out: the estimator
    is applied once the three circuits have been simulated. *)
Lemma measure_bases_cons {Rng : Type}
    (backend : Circuit -> Z -> Rng -> gmap string Z * Rng) (shots : Z)
    (p0 : R) (rest : list R) (w : World) :
  let rot := RY p0 :: match rest with [] => [] | p1 :: _ => [RZ p1] end in
  let qz := rot ++ [Measure] in
  let qx := rot ++ [GH; Measure] in
  let qy := rot ++ [GZ; GS; GH; Measure] in
  let rz := backend qz shots (rng w) in
  let rx := backend qx shots (snd rz) in
  let ry := backend qy shots (snd rx) in
  measure_bases backend shots (p0 :: rest) w =
  (let! e_z := exp_from_counts shots (fst rz) in
   let! e_x := exp_from_counts shots (fst rx) in
   let! e_y := exp_from_counts shots (fst ry) in
   Ok (e_z, e_x, e_y),
   {| rng := snd ry; executed := executed w ++ [qz; qx; qy] |}).
Proof.
  cbv zeta.
  unfold measure_bases, sim_bind, sim_lift, sim_ret, execute.
  rewrite !get_var_form_cons. simpl.
  destruct (backend _ shots (rng w)) as [cz r1]. simpl.
  destruct (backend _ shots r1) as [cx r2]. simpl.
  destruct (backend _ shots r2) as [cy r3]. simpl.
  rewrite <- !app_assoc. simpl.
  destruct (exp_from_counts shots cz); simpl; [| reflexivity].
  destruct (exp_from_counts shots cx); simpl; [| reflexivity].
  destruct (exp_from_counts shots cy); reflexivity.
Qed.

Lemma ham_exp_val_world {Rng : Type}
    (backend : Circuit -> Z -> Rng -> gmap string Z * Rng) (shots : Z)
    (params : list R) (a b c : R) (w : World) :
  snd (ham_exp_val backend shots params (a, b, c) w) =
  snd (measure_bases backend shots params w).
Proof.
  rewrite ham_exp_val_measure_bases.
  destruct (measure_bases backend shots params w) as [[[[e_z e_x] e_y] | e] w'];
    reflexivity.
Qed.

(** X16: one evaluation on a non-empty parameter vector simulates
    exactly three circuits, for Z, X and Y in this order, each run
    starting from the randomness state the previous one left; this holds
    also when the estimator then fails. *)
Theorem ham_exp_val_three_runs {Rng : Type}
    (backend : Circuit -> Z -> Rng -> gmap string Z * Rng) (shots : Z)
    (p0 : R) (rest : list R) (a b c : R) (w : World) :
  let rot := RY p0 :: match rest with [] => [] | p1 :: _ => [RZ p1] end in
  let qz := rot ++ [Measure] in
  let qx := rot ++ [GH; Measure] in
  let qy := rot ++ [GZ; GS; GH; Measure] in
  let rz := backend qz shots (rng w) in
  let rx := backend qx shots (snd rz) in
  let ry := backend qy shots (snd rx) in
  snd (ham_exp_val backend shots (p0 :: rest) (a, b, c) w) =
  {| rng := snd ry; executed := executed w ++ [qz; qx; qy] |}.
Proof.
  cbv zeta. rewrite ham_exp_val_world.
  pose proof (measure_bases_cons backend shots p0 rest w) as H.
  cbv zeta in H. rewrite H. reflexivity.
Qed.

Lemma exp_from_counts_nonzero_shots (shots : Z) (counts : gmap string Z) :
  shots <> 0%Z ->
  (counts !! "0" = None /\ counts !! "1" = None /\
   exp_from_counts shots counts = Raise (KeyError "1")) \/
  ((is_Some (counts !! "0") \/ is_Some (counts !! "1")) /\
   exists q, exp_from_counts shots counts = Ok q).
Proof.
  intros Hs. rewrite exp_from_counts_lookup.
  destruct (counts !! "0") as [c0|], (counts !! "1") as [c1|];
    rewrite ?py_truediv_ok by exact Hs; eauto 8.
Qed.

(** X17: with a positive shot budget, a non-empty parameter vector and a
    simulator that reports no outcome more often than there are shots (so
    that no quotient of the estimator leaves the range of the floats), the
    objective fails exactly when one of the three runs returns counts
    with neither key, and the error is then KeyError '1'. *)
Theorem ham_exp_val_failure {Rng : Type}
    (backend : Circuit -> Z -> Rng -> gmap string Z * Rng) (shots : Z)
    (p0 : R) (rest : list R) (a b c : R) (w : World) (e : PyExc) :
  (0 < shots)%Z ->
  (forall qc r key v,
     fst (backend qc shots r) !! key = Some v -> (0 <= v <= shots)%Z) ->
  let rot := RY p0 :: match rest with [] => [] | p1 :: _ => [RZ p1] end in
  let qz := rot ++ [Measure] in
  let qx := rot ++ [GH; Measure] in
  let qy := rot ++ [GZ; GS; GH; Measure] in
  let rz := backend qz shots (rng w) in
  let rx := backend qx shots (snd rz) in
  let ry := backend qy shots (snd rx) in
  let no_key (counts : gmap string Z) :=
    counts !! "0" = None /\ counts !! "1" = None in
  fst (ham_exp_val backend shots (p0 :: rest) (a, b, c) w) = Raise e <->
  e = KeyError "1" /\ (no_key (fst rz) \/ no_key (fst rx) \/ no_key (fst ry)).
Proof.
  intros Hpos _ rot qz qx qy rz rx ry no_key.
  assert (Hs : shots <> 0%Z) by lia.
  rewrite ham_exp_val_measure_bases.
  pose proof (measure_bases_cons backend shots p0 rest w) as H.
  cbv zeta in H. fold rot qz qx qy in H. fold rz in H. fold rx in H.
  fold ry in H. rewrite H. clear H. unfold no_key.
  generalize (fst rz) (fst rx) (fst ry). intros cz cx cy.
  destruct (exp_from_counts_nonzero_shots shots cz Hs)
    as [(Hz0 & Hz1 & ->) | (Hz & ez & ->)]; cbn [res_bind fst].
  { split; [intros E; injection E as <-; auto | intros [-> _]; reflexivity]. }
  destruct (exp_from_counts_nonzero_shots shots cx Hs)
    as [(Hx0 & Hx1 & ->) | (Hx & ex & ->)]; cbn [res_bind fst].
  { split; [intros E; injection E as <-; auto | intros [-> _]; reflexivity]. }
  destruct (exp_from_counts_nonzero_shots shots cy Hs)
    as [(Hy0 & Hy1 & ->) | (Hy & ey & ->)]; cbn [res_bind fst].
  { split; [intros E; injection E as <-; auto | intros [-> _]; reflexivity]. }
  split; [intros E; discriminate E |].
  intros [_ [[H0 H1] | [[H0 H1] | [H0 H1]]]];
    match goal with
    | K : is_Some (?c !! "0") \/ is_Some (?c !! "1"), K0 : ?c !! "0" = None,
      K1 : ?c !! "1" = None |- _ =>
        rewrite K0, K1 in K; destruct K as [[? K] | [? K]]; discriminate K
    end.
Qed.

Lemma ham_exp_val_failure_witness :
  fst (ham_exp_val (constant_backend ∅) NUM_SHOTS [1; 1] (1, 2, / 2)
         fresh_world) = Raise (KeyError "1").
Proof.
  apply (ham_exp_val_failure (constant_backend ∅) NUM_SHOTS 1 [1] 1 2 (/ 2)
           fresh_world (KeyError "1")).
  - unfold NUM_SHOTS. lia.
  - intros qc r key v H. unfold constant_backend in H. cbn [fst] in H.
    rewrite lookup_empty in H. discriminate H.
  - split; [reflexivity |]. left. split; reflexivity.
Defined.





(** ** The Hamiltonian as an operator *)

(** X19: the matrix of the exact check is a Z + b X + c Y. *)
Theorem ham_matrix_pauli_sum (a b c : R) :
  ham_matrix (a, b, c) =
  Madd (Madd (Mscale (RtoC a) PauliZ) (Mscale (RtoC b) PauliX))
       (Mscale (RtoC c) PauliY).
Proof.
  unfold ham_matrix. qubit_unfold. split_entries; ring.
Qed.

(** X20: [get_ham_op] fails exactly when it is not given three
    parameters; for (a, b, c) the operator it returns has no term of
    weight zero, has the three terms a on Z, b on X and c on Y when no
    coefficient is zero, and its matrix is in every case the matrix of
    the exact check of the first notebook. *)
Theorem get_ham_op_matrix (params : list R) :
  (get_ham_op params = None <-> length params <> 3%nat) /\
  (forall a b c, params = [a; b; c] ->
     exists op,
       get_ham_op params = Some op /\
       (forall t, In t op -> fst t <> 0) /\
       (a <> 0 -> b <> 0 -> c <> 0 ->
        op = [(a, mk_pauli [true] [false]); (b, mk_pauli [false] [true]);
              (c, mk_pauli [true] [true])]) /\
       operator_matrix op = Some (ham_matrix (a, b, c))).
Proof.
  split.
  - destruct params as [|a [|b [|c [|d rest]]]]; simpl;
      split; intros H; try discriminate H; try lia; try reflexivity;
      contradiction H; reflexivity.
  - intros a b c ->. eexists. split; [reflexivity |].
    unfold WeightedPauliOperator_init.
    cbn [fold_left add_term pauli_eqb bits_eqb pauli_z pauli_x snd fst
         length Nat.eqb combine forallb Bool.eqb andb].
    cbn [List.filter fst].
    destruct (Req_dec_T a 0) as [-> | Ha], (Req_dec_T b 0) as [-> | Hb],
      (Req_dec_T c 0) as [-> | Hc].
    all: split;
      [ intros t Ht; cbn [In] in Ht;
        repeat (destruct Ht as [<- | Ht]; [assumption |]); contradiction Ht
      | split;
        [ intros Ha' Hb' Hc'; first [reflexivity | contradiction]
        | unfold operator_matrix;
          cbn [fold_left pauli_matrix pauli_z pauli_x snd fst];
          f_equal; unfold ham_matrix; qubit_unfold; split_entries; ring ] ].
Qed.
